(** * paicorelib.routing_defs: hierarchical multicast routing addresses

    A shallow embedding of [paicorelib/routing_defs.py] and the properties
    its specification states about it.

    Python integers are unbounded, so they are [Z]; the bit operators
    [<<], [>>], [&], [|], [^] are [Z.shiftl], [Z.shiftr], [Z.land],
    [Z.lor], [Z.lxor], which agree with Python's two's-complement reading
    of negative numbers.  A Python [set] is a [gset].  A call that may
    raise returns a [result]. *)

From stdpp Require Import base numbers list countable gmap sets fin_sets.

Local Open Scope Z_scope.

(** ** Python runtime: exceptions, sequences, ranges *)

Inductive exn : Set :=
  | TypeError
  | AttributeError
  | IndexError
  | ValueError
  | ZeroDivisionError.

Inductive result (A : Type) : Type :=
  | Ok (a : A)
  | Raise (e : exn).

Arguments Ok {A} a.
Arguments Raise {A} e.

#[global] Instance result_ret : MRet result := @Ok.

#[global] Instance result_bind : MBind result := λ A B k m,
  match m with
  | Ok a => k a
  | Raise e => Raise e
  end.

(** [l[i]] on a list or tuple: a negative index counts from the end, an
    index outside the sequence raises [IndexError]. *)
Definition getitem {A : Type} (l : list A) (i : Z) : result A :=
  let j := if i <? 0 then i + Z.of_nat (length l) else i in
  if j <? 0 then Raise IndexError
  else match l !! Z.to_nat j with
       | Some a => Ok a
       | None => Raise IndexError
       end.

(** [range(n)] and [reversed(range(n))]. *)
Definition range (n : nat) : list Z := Z.of_nat <$> seq 0 n.
Definition reversed {A : Type} (l : list A) : list A := reverse l.

(** Truth value of an integer in a condition. *)
Definition truthy (n : Z) : bool := negb (n =? 0).

(** [a // b], floor division. *)
Definition floordiv (a b : Z) : result Z :=
  if b =? 0 then Raise ZeroDivisionError else Ok (a `div` b).

(** ** The imported coordinate types *)

(** Modelled from the spec: the module [paicorelib.coordinate] is imported
    but absent.  [Coord] is an absolute mesh coordinate, a pair of integer
    fields [x] and [y]; [ReplicationId] (imported as [RId]) is a pair of
    integer bitmask fields [x] and [y]. *)
Record Coord : Set := mkCoord { coord_x : Z; coord_y : Z }.
Record RId : Set := mkRId { rid_x : Z; rid_y : Z }.

#[global] Instance Coord_eq_dec : EqDecision Coord.
Proof. solve_decision. Defined.

#[global] Instance RId_eq_dec : EqDecision RId.
Proof. solve_decision. Defined.

#[global] Instance Coord_countable : Countable Coord.
Proof.
  refine (inj_countable' (λ c, (coord_x c, coord_y c))
                         (λ p, mkCoord p.1 p.2) _).
  by intros [].
Defined.

(** Modelled from the spec: [Coord ^ Coord] is the per-axis XOR of the two
    coordinates, given as a [ReplicationId]. *)
Definition Coord_xor (a b : Coord) : RId :=
  mkRId (Z.lxor (coord_x a) (coord_x b)) (Z.lxor (coord_y a) (coord_y b)).

(** Modelled from the spec: [RId | RId] is the per-axis bitwise OR. *)
Definition RId_or (a b : RId) : RId :=
  mkRId (Z.lor (rid_x a) (rid_x b)) (Z.lor (rid_y a) (rid_y b)).

(** ** RoutingLevel *)

Module RoutingLevel.

Inductive t : Set := L0 | L1 | L2 | L3 | L4 | L5.

#[global] Instance eq_dec : EqDecision t.
Proof. solve_decision. Defined.

Definition value (l : t) : Z :=
  match l with
  | L0 => 0 | L1 => 1 | L2 => 2 | L3 => 3 | L4 => 4 | L5 => 5
  end.

(** [RoutingLevel(n)]: the member whose value is [n], [ValueError] when
    there is none. *)
Definition call (n : Z) : result t :=
  match n with
  | 0 => Ok L0 | 1 => Ok L1 | 2 => Ok L2 | 3 => Ok L3 | 4 => Ok L4 | 5 => Ok L5
  | _ => Raise ValueError
  end.

End RoutingLevel.

(** ** RoutingDirection *)

Module RoutingDirection.

Inductive t : Set := X0Y0 | X0Y1 | X1Y0 | X1Y1 | ANY.

#[global] Instance eq_dec : EqDecision t.
Proof. solve_decision. Defined.

Definition value (d : t) : Z * Z :=
  match d with
  | X0Y0 => (0, 0)
  | X0Y1 => (0, 1)
  | X1Y0 => (1, 0)
  | X1Y1 => (1, 1)
  | ANY => (-1, -1)
  end.

(** [self is RoutingDirection.ANY] *)
Definition is_ANY (d : t) : bool := bool_decide (d = ANY).

Definition to_index (self : t) : result Z :=
  if is_ANY self then Raise TypeError
  else
    let '(x, y) := value self in
    Ok (Z.shiftl x 1 + y).

End RoutingDirection.

(** ** RoutingStatus *)

Module RoutingStatus.

Inductive t : Set := AVAILABLE | USED | OCCUPIED | ALL_EMPTY.

Definition value (s : t) : Z :=
  match s with
  | AVAILABLE => 0 | USED => 1 | OCCUPIED => 2 | ALL_EMPTY => 3
  end.

(** [RoutingStatus(n)] *)
Definition call (n : Z) : result t :=
  match n with
  | 0 => Ok AVAILABLE | 1 => Ok USED | 2 => Ok OCCUPIED | 3 => Ok ALL_EMPTY
  | _ => Raise ValueError
  end.

End RoutingStatus.

(** ** RoutingCost *)

Module RoutingCost.

Record t : Set := mk { n_L0 : Z; n_L1 : Z; n_L2 : Z; n_L3 : Z; n_L4 : Z }.

(** The named tuple as a sequence. *)
Definition to_list (self : t) : list Z :=
  [n_L0 self; n_L1 self; n_L2 self; n_L3 self; n_L4 self].

(** The [for i in reversed(range(5))] loop, over the indices still to visit. *)
Fixpoint get_routing_level_loop (self : t) (idx : list Z)
  : result RoutingLevel.t :=
  match idx with
  | [] => Ok RoutingLevel.L1
  | i :: idx' =>
      n ← getitem (to_list self) i;
      if n >? 1 then RoutingLevel.call (i + 1)
      else get_routing_level_loop self idx'
  end.

Definition get_routing_level (self : t) : result RoutingLevel.t :=
  get_routing_level_loop self (reversed (range 5)).

End RoutingCost.

(** ** ROUTING_DIRECTIONS_IDX *)

(** [HwParams.COORD_Y_PRIORITY] comes from the absent [hw_defs]; it is a
    parameter here. *)
Definition ROUTING_DIRECTIONS_IDX (COORD_Y_PRIORITY : bool)
  : list RoutingDirection.t :=
  if COORD_Y_PRIORITY then
    [RoutingDirection.X0Y0; RoutingDirection.X0Y1;
     RoutingDirection.X1Y0; RoutingDirection.X1Y1]
  else
    [RoutingDirection.X0Y0; RoutingDirection.X1Y0;
     RoutingDirection.X0Y1; RoutingDirection.X1Y1].

(** ** RoutingCoord *)

Module RoutingCoord.

Record t : Set := mk {
  L4 : RoutingDirection.t;
  L3 : RoutingDirection.t;
  L2 : RoutingDirection.t;
  L1 : RoutingDirection.t;
  L0 : RoutingDirection.t
}.

Definition to_list (self : t) : list RoutingDirection.t :=
  [L4 self; L3 self; L2 self; L1 self; L0 self].

(** The [for i in range(len(self))] loop of [level]. *)
Fixpoint level_loop (self : t) (idx : list Z) : result RoutingLevel.t :=
  match idx with
  | [] => Ok RoutingLevel.L0
  | i :: idx' =>
      d ← getitem (to_list self) i;
      if RoutingDirection.is_ANY d then RoutingLevel.call (5 - i)
      else level_loop self idx'
  end.

Definition level (self : t) : result RoutingLevel.t :=
  level_loop self (range (length (to_list self))).

Definition coordinate (self : t) : result Coord :=
  lv ← level self;
  if RoutingLevel.value lv >? RoutingLevel.value RoutingLevel.L0 then
    Raise AttributeError
  else
    let x :=
      Z.shiftl (RoutingDirection.value (L4 self)).1 4
      + Z.shiftl (RoutingDirection.value (L3 self)).1 3
      + Z.shiftl (RoutingDirection.value (L2 self)).1 2
      + Z.shiftl (RoutingDirection.value (L1 self)).1 1
      + (RoutingDirection.value (L0 self)).1 in
    let y :=
      Z.shiftl (RoutingDirection.value (L4 self)).2 4
      + Z.shiftl (RoutingDirection.value (L3 self)).2 3
      + Z.shiftl (RoutingDirection.value (L2 self)).2 2
      + Z.shiftl (RoutingDirection.value (L1 self)).2 1
      + (RoutingDirection.value (L0 self)).2 in
    Ok (mkCoord x y).

End RoutingCoord.

(** ** get_routing_consumption *)

(** The [while n_L0_nodes < n_core: n_L0_nodes <<= 1] loop of the inner
    function [n_L0_required].  [fuel] bounds the number of times the loop
    test is evaluated; [None] means the bound was reached. *)
Fixpoint n_L0_loop (fuel : nat) (n_core n_L0_nodes : Z) : option Z :=
  match fuel with
  | O => None
  | S fuel' =>
      if n_L0_nodes <? n_core then n_L0_loop fuel' n_core (Z.shiftl n_L0_nodes 1)
      else Some n_L0_nodes
  end.

Definition n_L0_required (fuel : nat) (n_core : Z) : option Z :=
  n_L0_loop fuel n_core 1.

(** One line [n_Lk = 1 if n_prev < n_sub_node else (n_prev // n_sub_node)]. *)
Definition n_next (n_sub_node n_prev : Z) : result Z :=
  if n_prev <? n_sub_node then Ok 1 else floordiv n_prev n_sub_node.

(** [HwParams.N_SUB_ROUTING_NODE] comes from the absent [hw_defs]; it is the
    parameter [n_sub_node]. *)
Definition get_routing_consumption (n_sub_node : Z) (fuel : nat) (n_core : Z)
  : option (result RoutingCost.t) :=
  match n_L0_required fuel n_core with
  | None => None
  | Some n_L0 =>
      Some (n_L1 ← n_next n_sub_node n_L0;
            n_L2 ← n_next n_sub_node n_L1;
            n_L3 ← n_next n_sub_node n_L2;
            n_L4 ← n_next n_sub_node n_L3;
            Ok (RoutingCost.mk n_L0 n_L1 n_L2 n_L3 n_L4))
  end.

(** ** get_replication_id *)

Definition get_replication_id (coords : list Coord) : result RId :=
  base_coord ← getitem coords 0;
  Ok (foldl (λ rid coord, RId_or rid (Coord_xor base_coord coord))
            (mkRId 0 0) (drop 1 coords)).

(** ** get_multicast_cores *)

(** The inner [for v in core: temp.add(v ^ (1 << lx))] loop: what [temp]
    holds afterwards. *)
Definition add_flipped (lx : Z) (core temp : gset Z) : gset Z :=
  temp ∪ set_map (λ v, Z.lxor v (Z.shiftl 1 lx)) core.

(** The state of the outer loop: [corex], [corey] and the shared [temp]. *)
Record mc_state : Type := mkState {
  corex : gset Z;
  corey : gset Z;
  temp : gset Z
}.

(** One iteration of [for lx in range(5)]. *)
Definition mc_step (rid : RId) (st : mc_state) (lx : Z) : mc_state :=
  let st :=
    if truthy (Z.land (Z.shiftr (rid_x rid) lx) 1) then
      let temp := add_flipped lx (corex st) (temp st) in
      mkState (corex st ∪ temp) (corey st) ∅
    else st in
  if truthy (Z.land (Z.shiftr (rid_y rid) lx) 1) then
    let temp := add_flipped lx (corey st) (temp st) in
    mkState (corex st) (corey st ∪ temp) ∅
  else st.

Definition get_multicast_cores (base_coord : Coord) (rid : RId) : gset Coord :=
  let st0 := mkState {[coord_x base_coord]} {[coord_y base_coord]} ∅ in
  let st := foldl (mc_step rid) st0 (range 5) in
  set_bind (λ x, set_map (λ y, mkCoord x y) (corey st)) (corex st).

(** ** The specification's wording of the expansion, for comparison *)

(** Doubling a candidate set on bit position [k] when that bit is set in
    [mask]: every candidate [v] contributes [v XOR (1 << k)]. *)
Definition double_on (mask : Z) (s : gset Z) (k : Z) : gset Z :=
  if Z.testbit mask k
  then s ∪ set_map (λ v, Z.lxor v (Z.shiftl 1 k)) s
  else s.

(** The candidate set of one axis: start from [{b}] and double on each bit
    position of [ks] in turn. *)
Definition candidates (b mask : Z) (ks : list Z) : gset Z :=
  foldl (double_on mask) {[b]} ks.

Definition expand_multicast_group (base : Coord) (mask : RId) : gset Coord :=
  set_map (λ p : Z * Z, mkCoord p.1 p.2)
          (cprod (candidates (coord_x base) (rid_x mask) [0; 1; 2; 3; 4])
                 (candidates (coord_y base) (rid_y mask) [0; 1; 2; 3; 4])).

(** ** Vocabulary of the specification *)

(** A call fails when it raises some exception. *)
Definition raises {A : Type} (r : result A) : Prop := ∃ e, r = Raise e.

(** The quadrant bits of a direction. *)
Definition x_bit (d : RoutingDirection.t) : Z := (RoutingDirection.value d).1.
Definition y_bit (d : RoutingDirection.t) : Z := (RoutingDirection.value d).2.

(** The entry of a path for a level: [direction rc 4] is the L4 entry,
    [direction rc 0] the L0 entry. *)
Definition direction (rc : RoutingCoord.t) (level : Z) : RoutingDirection.t :=
  match level with
  | 4 => RoutingCoord.L4 rc
  | 3 => RoutingCoord.L3 rc
  | 2 => RoutingCoord.L2 rc
  | 1 => RoutingCoord.L1 rc
  | _ => RoutingCoord.L0 rc
  end.

(** The sum over [level = 0..4] of [bit level << level]. *)
Definition level_sum (bit : Z → Z) : Z :=
  foldr (λ level acc, Z.shiftl (bit level) level + acc) 0 [0; 1; 2; 3; 4].

(** The [n_L0] field of what [get_routing_consumption] produced, when it
    returned a cost. *)
Definition n_L0_of (r : option (result RoutingCost.t)) : option Z :=
  match r with
  | Some (Ok rc) => Some (RoutingCost.n_L0 rc)
  | _ => None
  end.

(** A mask cut down to its low five bits. *)
Definition low5 (rid : RId) : RId :=
  mkRId (Z.land (rid_x rid) 31) (Z.land (rid_y rid) 31).

(** The bitwise OR of a sequence of masks. *)
Definition big_or (l : list RId) : RId := foldr RId_or (mkRId 0 0) l.

(** Two coordinates agree on every bit at position 5 and above, on both
    axes. *)
Definition same_high_bits (a b : Coord) : Prop :=
  Z.shiftr (coord_x a) 5 = Z.shiftr (coord_x b) 5
  ∧ Z.shiftr (coord_y a) 5 = Z.shiftr (coord_y b) 5.

(** The values of the aligned interval number [a] of width [2^i]. *)
Definition in_interval (i a v : Z) : Prop := a * 2 ^ i ≤ v < (a + 1) * 2 ^ i.

(** An axis-aligned power-of-two block: all the coordinates of an aligned
    interval of width [2^i] on x and one of width [2^j] on y. *)
Definition aligned_block (cs : gset Coord) : Prop :=
  ∃ i j a b, 0 ≤ i ∧ 0 ≤ j
    ∧ ∀ c, c ∈ cs ↔ in_interval i a (coord_x c) ∧ in_interval j b (coord_y c).

(** The direction with the two quadrant bits exchanged. *)
Definition transpose (d : RoutingDirection.t) : RoutingDirection.t :=
  match d with
  | RoutingDirection.X0Y1 => RoutingDirection.X1Y0
  | RoutingDirection.X1Y0 => RoutingDirection.X0Y1
  | d => d
  end.

(** The concrete direction with given quadrant bits. *)
Definition direction_of_bits (bx by_ : bool) : RoutingDirection.t :=
  match bx, by_ with
  | false, false => RoutingDirection.X0Y0
  | false, true => RoutingDirection.X0Y1
  | true, false => RoutingDirection.X1Y0
  | true, true => RoutingDirection.X1Y1
  end.

(** The full path whose level-[k] direction carries bit [k] of [x] and of
    [y]. *)
Definition path_of_coord (x y : Z) : RoutingCoord.t :=
  RoutingCoord.mk
    (direction_of_bits (Z.testbit x 4) (Z.testbit y 4))
    (direction_of_bits (Z.testbit x 3) (Z.testbit y 3))
    (direction_of_bits (Z.testbit x 2) (Z.testbit y 2))
    (direction_of_bits (Z.testbit x 1) (Z.testbit y 1))
    (direction_of_bits (Z.testbit x 0) (Z.testbit y 0)).

(** The number of bit positions of [ks] set in [m]. *)
Definition bit_count (m : Z) (ks : list Z) : nat :=
  sum_list_with (λ k, if Z.testbit m k then 1%nat else 0%nat) ks.

(** Every set bit of [a] is set in [b]. *)
Definition submask (a b : Z) : Prop :=
  ∀ k, Z.testbit a k = true → Z.testbit b k = true.

(** [get_routing_consumption(n_core)] returns the cost [rc]: it does so
    with any large enough bound on the loop. *)
Definition returns_cost (F n_core : Z) (rc : RoutingCost.t) : Prop :=
  ∃ fuel0 : nat, ∀ fuel, (fuel0 ≤ fuel)%nat →
    get_routing_consumption F fuel n_core = Some (Ok rc).

(** Modelled from the spec: a coordinate of the mesh has five bits per
    axis, so both of its fields lie in 0..31 (32 x 32 leaves); the absent
    [Coord] type holds no other value. *)
Definition in_mesh (c : Coord) : Prop :=
  0 ≤ coord_x c < 32 ∧ 0 ≤ coord_y c < 32.

(** * Properties *)

(** ** Level and direction model *)

Section direction.
Import RoutingDirection.

Lemma is_ANY_true (d : t) : is_ANY d = true ↔ d = ANY.
Proof. unfold is_ANY. by rewrite bool_decide_eq_true. Qed.

Lemma is_ANY_false (d : t) : is_ANY d = false ↔ d ≠ ANY.
Proof. unfold is_ANY. by rewrite bool_decide_eq_false. Qed.

(** C9. [to_index] fails exactly on [ANY], and then with [TypeError]; on a
    concrete quadrant direction [(x, y)] it returns [(x << 1) + y], a
    child slot in [0..3]: X0Y0 gives 0, X0Y1 gives 1, X1Y0 gives 2 and
    X1Y1 gives 3. *)
Theorem to_index_fails_iff_ANY (d : t) :
  (raises (to_index d) ↔ d = ANY)
  ∧ (to_index d = Raise TypeError ↔ d = ANY)
  ∧ (d = ANY
     ∨ ∃ i, to_index d = Ok i
            ∧ i = Z.shiftl (value d).1 1 + (value d).2
            ∧ 0 ≤ i ≤ 3)
  ∧ to_index X0Y0 = Ok 0
  ∧ to_index X0Y1 = Ok 1
  ∧ to_index X1Y0 = Ok 2
  ∧ to_index X1Y1 = Ok 3.
Proof.
  split_and!; try reflexivity.
  - split; [intros [e He] | intros ->; by exists TypeError].
    by destruct d.
  - split; [by destruct d | by intros ->].
  - destruct d; [right | right | right | right | by left];
      eexists; (split_and!; [reflexivity | reflexivity | by vm_compute ..]).
Qed.
End direction.

(** ** Resource cost: the containing level *)

Section routing_level.
Import RoutingCost.

Lemma call_succ_index (i : nat) :
  (i < 5)%nat →
  ∃ l, RoutingLevel.call (Z.of_nat i + 1) = Ok l
       ∧ RoutingLevel.value l = Z.of_nat i + 1.
Proof.
  intros Hi. do 5 (destruct i as [|i]; [by eexists |]). lia.
Qed.

(** The five iterations of the loop, written out. *)
Lemma get_routing_level_unfold (c : t) :
  get_routing_level c =
    if n_L4 c >? 1 then Ok RoutingLevel.L5
    else if n_L3 c >? 1 then Ok RoutingLevel.L4
    else if n_L2 c >? 1 then Ok RoutingLevel.L3
    else if n_L1 c >? 1 then Ok RoutingLevel.L2
    else if n_L0 c >? 1 then Ok RoutingLevel.L1
    else Ok RoutingLevel.L1.
Proof. by destruct c. Qed.

(** C6. [get_routing_level] returns [RoutingLevel(i + 1)] for the largest
    index [i] whose count exceeds 1, and [L1] when no count exceeds 1;
    [RoutingCost(1,1,1,1,1)] gives [L1] and [RoutingCost(8,2,1,1,1)]
    gives [L2]. *)
Theorem get_routing_level_largest_index (c : t) :
  (∀ (i : nat) (n : Z),
      to_list c !! i = Some n → 1 < n →
      (∀ (j : nat) (m : Z), (i < j)%nat → to_list c !! j = Some m → m ≤ 1) →
      get_routing_level c = RoutingLevel.call (Z.of_nat i + 1)
      ∧ ∃ l, get_routing_level c = Ok l
             ∧ RoutingLevel.value l = Z.of_nat i + 1)
  ∧ ((∀ n, n ∈ to_list c → n ≤ 1) → get_routing_level c = Ok RoutingLevel.L1)
  ∧ get_routing_level (mk 1 1 1 1 1) = Ok RoutingLevel.L1
  ∧ get_routing_level (mk 8 2 1 1 1) = Ok RoutingLevel.L2.
Proof.
  destruct c as [c0 c1 c2 c3 c4].
  split_and!; [| | reflexivity ..].
  - intros i n Hn Hgt Hrest.
    assert (Hi : (i < 5)%nat) by (apply lookup_lt_Some in Hn; done).
    assert (Heq : get_routing_level (mk c0 c1 c2 c3 c4)
                  = RoutingLevel.call (Z.of_nat i + 1)).
    { pose proof (Hrest 1%nat c1) as H1. pose proof (Hrest 2%nat c2) as H2.
      pose proof (Hrest 3%nat c3) as H3. pose proof (Hrest 4%nat c4) as H4.
      rewrite get_routing_level_unfold. cbn.
      do 5 (destruct i as [|i];
            [repeat match goal with
                    | H : (_ < _)%nat → _ |- _ =>
                        first [ specialize (H ltac:(lia) eq_refl) | clear H ]
                    end;
             cbn in Hn; simplify_eq; repeat case_match; try reflexivity; lia |]).
      lia. }
    split; [done |]. rewrite Heq. by apply call_succ_index.
  - intros Hall.
    assert (c0 ≤ 1 ∧ c1 ≤ 1 ∧ c2 ≤ 1 ∧ c3 ≤ 1 ∧ c4 ≤ 1) as (?&?&?&?&?).
    { split_and!; apply Hall; cbn; set_solver. }
    rewrite get_routing_level_unfold. cbn.
    repeat case_match; try reflexivity; lia.
Qed.
End routing_level.

(** ** Coordinate mapper *)

Lemma getitem_of_nat {A : Type} (l : list A) (i : nat) (a : A) :
  l !! i = Some a → getitem l (Z.of_nat i) = Ok a.
Proof.
  intros Hl. unfold getitem.
  destruct (Z.ltb_spec (Z.of_nat i) 0) as [|_]; [lia |].
  destruct (Z.ltb_spec (Z.of_nat i) 0) as [|_]; [lia |].
  by rewrite Nat2Z.id, Hl.
Qed.

Section coordinate_mapper.
Import RoutingDirection RoutingCoord.

Lemma to_list_length (rc : RoutingCoord.t) : length (to_list rc) = 5%nat.
Proof. reflexivity. Qed.

Lemma call_level_index (i : nat) :
  (i < 5)%nat →
  ∃ l, RoutingLevel.call (5 - Z.of_nat i) = Ok l
       ∧ RoutingLevel.value l = 5 - Z.of_nat i
       ∧ l ≠ RoutingLevel.L0.
Proof.
  intros Hi. do 5 (destruct i as [|i]; [by eexists |]). lia.
Qed.

(** The scan stops at the first wildcard entry it meets. *)
Lemma level_loop_first_ANY (rc : RoutingCoord.t) (n k i : nat) :
  (k ≤ i < k + n)%nat →
  to_list rc !! i = Some ANY →
  (∀ j, (k ≤ j < i)%nat → to_list rc !! j ≠ Some ANY) →
  level_loop rc (Z.of_nat <$> seq k n) = RoutingLevel.call (5 - Z.of_nat i).
Proof.
  revert k. induction n as [|n IH]; intros k Hi Hany Hbefore; [lia |].
  cbn [seq fmap list_fmap level_loop].
  destruct (decide (k = i)) as [->|Hne].
  - rewrite (getitem_of_nat _ _ _ Hany). reflexivity.
  - destruct (lookup_lt_is_Some_2 (to_list rc) k) as [d Hd].
    { apply lookup_lt_Some in Hany. lia. }
    rewrite (getitem_of_nat _ _ _ Hd). cbn.
    assert (is_ANY d = false) as ->.
    { apply is_ANY_false. intros ->. by apply (Hbefore k); [lia |]. }
    apply IH; [lia | done |]. intros j Hj. apply Hbefore. lia.
Qed.

(** Without a wildcard entry the scan runs to the end. *)
Lemma level_loop_no_ANY (rc : RoutingCoord.t) (n k : nat) :
  (k + n ≤ 5)%nat →
  (∀ j, (k ≤ j)%nat → to_list rc !! j ≠ Some ANY) →
  level_loop rc (Z.of_nat <$> seq k n) = Ok RoutingLevel.L0.
Proof.
  revert k. induction n as [|n IH]; intros k Hk Hno; [done |].
  cbn [seq fmap list_fmap level_loop].
  destruct (lookup_lt_is_Some_2 (to_list rc) k) as [d Hd].
  { rewrite to_list_length. lia. }
  rewrite (getitem_of_nat _ _ _ Hd). cbn.
  assert (is_ANY d = false) as ->.
  { apply is_ANY_false. intros ->. by apply (Hno k). }
  apply IH; [lia |]. intros j Hj. apply Hno. lia.
Qed.

(** The first position holding [ANY], if there is one. *)
Lemma first_ANY_exists (l : list RoutingDirection.t) :
  ANY ∈ l →
  ∃ i : nat, l !! i = Some ANY ∧ ∀ j, (j < i)%nat → l !! j ≠ Some ANY.
Proof.
  induction l as [|d l IH]; [by intros ?%elem_of_nil |].
  destruct (decide (d = ANY)) as [->|Hd].
  - intros _. exists 0%nat. split; [done | lia].
  - intros [?|Hin]%elem_of_cons; [done |].
    destruct (IH Hin) as (i & Hi & Hlt). exists (S i). split; [done |].
    intros [|j] Hj; cbn; [congruence | apply Hlt; lia].
Qed.

(** C5. [level] is [RoutingLevel(5 - index)] for the position [index]
    (from 0 at the L4 entry) of the first entry equal to [ANY], and [L0]
    when no entry is [ANY]. *)
Theorem level_first_ANY (rc : RoutingCoord.t) :
  (∀ index : nat,
      to_list rc !! index = Some ANY →
      (∀ j, (j < index)%nat → to_list rc !! j ≠ Some ANY) →
      level rc = RoutingLevel.call (5 - Z.of_nat index)
      ∧ ∃ l, level rc = Ok l ∧ RoutingLevel.value l = 5 - Z.of_nat index)
  ∧ (ANY ∉ to_list rc → level rc = Ok RoutingLevel.L0).
Proof.
  split.
  - intros i Hany Hbefore.
    assert (Hi : (i < 5)%nat) by (by apply lookup_lt_Some in Hany).
    assert (Heq : level rc = RoutingLevel.call (5 - Z.of_nat i)).
    { unfold level, range. rewrite to_list_length.
      apply level_loop_first_ANY; [lia | done |].
      intros j Hj. apply Hbefore. lia. }
    split; [done |]. rewrite Heq.
    destruct (call_level_index i Hi) as (l & Hl & Hv & _). eauto.
  - intros Hno. unfold level, range. rewrite to_list_length.
    apply level_loop_no_ANY; [lia |].
    intros j _ Hj. apply Hno. by eapply list_elem_of_lookup_2.
Qed.
End coordinate_mapper.

Section coordinate.
Import RoutingDirection RoutingCoord.

Lemma level_no_ANY (rc : RoutingCoord.t) :
  ANY ∉ to_list rc → level rc = Ok RoutingLevel.L0.
Proof.
  intros Hno. unfold level, range. rewrite to_list_length.
  apply level_loop_no_ANY; [lia |].
  intros j _ Hj. apply Hno. by eapply list_elem_of_lookup_2.
Qed.

Lemma level_some_ANY (rc : RoutingCoord.t) :
  ANY ∈ to_list rc → ∃ l, level rc = Ok l ∧ l ≠ RoutingLevel.L0.
Proof.
  intros (i & Hany & Hbefore)%first_ANY_exists.
  assert (Hi : (i < 5)%nat) by (by apply lookup_lt_Some in Hany).
  destruct (call_level_index i Hi) as (l & Hl & _ & Hne).
  exists l. split; [| done]. rewrite <- Hl.
  unfold level, range. rewrite to_list_length.
  apply level_loop_first_ANY; [lia | done |].
  intros j Hj. apply Hbefore. lia.
Qed.

(** A concrete direction carries one bit per axis. *)
Lemma concrete_bits (d : RoutingDirection.t) :
  d ≠ ANY → ∃ bx by_, value d = (Z.b2z bx, Z.b2z by_).
Proof.
  destruct d; [| | | | done]; intros _;
    [by exists false, false | by exists false, true
     | by exists true, false | by exists true, true].
Qed.

(** Five bits placed at positions 4..0 are read back by [Z.testbit]. *)
Lemma placed_bits_testbit (b4 b3 b2 b1 b0 : bool) (k : Z) :
  0 ≤ k ≤ 4 →
  Z.b2z (Z.testbit (Z.shiftl (Z.b2z b4) 4 + Z.shiftl (Z.b2z b3) 3
                    + Z.shiftl (Z.b2z b2) 2 + Z.shiftl (Z.b2z b1) 1
                    + Z.b2z b0) k)
  = Z.b2z (match k with 4 => b4 | 3 => b3 | 2 => b2 | 1 => b1 | _ => b0 end).
Proof.
  intros Hk.
  assert (k = 0 ∨ k = 1 ∨ k = 2 ∨ k = 3 ∨ k = 4) as [->|[->|[->|[->| ->]]]]
    by lia;
    by destruct b4, b3, b2, b1, b0.
Qed.

(** C4. [coordinate] fails with [AttributeError] whenever some entry is
    [ANY], that is whenever the level is above [L0]; on a fully specified
    path it returns [x] as the sum over levels 0..4 of the level's x bit
    shifted by the level, [y] likewise, so that bit [k] of [x] (of [y]) is
    the x (the y) quadrant bit of the level-[k] direction. *)
Theorem coordinate_of_full_path (rc : RoutingCoord.t) :
  (ANY ∈ to_list rc → coordinate rc = Raise AttributeError)
  ∧ (∀ l, level rc = Ok l → l ≠ RoutingLevel.L0 →
          coordinate rc = Raise AttributeError)
  ∧ (ANY ∉ to_list rc →
     ∃ c, coordinate rc = Ok c
          ∧ coord_x c = level_sum (λ k, x_bit (direction rc k))
          ∧ coord_y c = level_sum (λ k, y_bit (direction rc k))
          ∧ ∀ k, 0 ≤ k ≤ 4 →
                 Z.b2z (Z.testbit (coord_x c) k) = x_bit (direction rc k)
                 ∧ Z.b2z (Z.testbit (coord_y c) k) = y_bit (direction rc k)).
Proof.
  assert (Habove : ∀ l, level rc = Ok l → l ≠ RoutingLevel.L0 →
                        coordinate rc = Raise AttributeError).
  { intros l Hl Hne. unfold coordinate. rewrite Hl. by destruct l. }
  split_and!; [| done |].
  - intros (l & Hl & Hne)%level_some_ANY. by eapply Habove.
  - intros Hno. unfold coordinate. rewrite (level_no_ANY rc Hno). cbn.
    eexists. split; [reflexivity |]. cbn [coord_x coord_y].
    destruct rc as [d4 d3 d2 d1 d0]. cbn [L4 L3 L2 L1 L0].
    destruct (concrete_bits d4) as (x4 & y4 & E4); [set_solver |].
    destruct (concrete_bits d3) as (x3 & y3 & E3); [set_solver |].
    destruct (concrete_bits d2) as (x2 & y2 & E2); [set_solver |].
    destruct (concrete_bits d1) as (x1 & y1 & E1); [set_solver |].
    destruct (concrete_bits d0) as (x0 & y0 & E0); [set_solver |].
    unfold level_sum, x_bit, y_bit. cbn [foldr direction L4 L3 L2 L1 L0].
    rewrite !Z.shiftl_0_r. split_and!; [lia | lia |].
    intros k Hk. rewrite E4, E3, E2, E1, E0. cbn [fst snd].
    rewrite !placed_bits_testbit by done.
    assert (k = 0 ∨ k = 1 ∨ k = 2 ∨ k = 3 ∨ k = 4) as [->|[->|[->|[->| ->]]]]
      by lia;
      cbn [direction L4 L3 L2 L1 L0]; by rewrite ?E4, ?E3, ?E2, ?E1, ?E0.
Qed.
End coordinate.

(** ** Resource cost: node counts per level *)

Section consumption.
Import RoutingCost.

(** The branching factor [HwParams.N_SUB_ROUTING_NODE], a positive
    integer. *)
Variable F : Z.
Hypothesis F_pos : 0 < F.

(** More fuel does not change a result already reached. *)
Lemma n_L0_loop_mono (fuel fuel' : nat) (n_core v r : Z) :
  n_L0_loop fuel n_core v = Some r →
  (fuel ≤ fuel')%nat →
  n_L0_loop fuel' n_core v = Some r.
Proof.
  revert fuel' v. induction fuel as [|fuel IH]; intros fuel' v Hr Hle; [done |].
  destruct fuel' as [|fuel']; [lia |]. cbn in *.
  destruct (v <? n_core); [| done]. apply IH; [done | lia].
Qed.

(** Started at [2^k] with every smaller power below [n_core], the loop
    stops at the first power of two that reaches [n_core]. *)
Lemma n_L0_loop_stops (n_core : Z) (d : nat) (k : Z) :
  0 ≤ k →
  n_core ≤ 2 ^ (k + Z.of_nat d) →
  (∀ j, 0 ≤ j < k → 2 ^ j < n_core) →
  ∃ m, k ≤ m
       ∧ n_L0_loop (S d) n_core (2 ^ k) = Some (2 ^ m)
       ∧ n_core ≤ 2 ^ m
       ∧ ∀ j, 0 ≤ j < m → 2 ^ j < n_core.
Proof.
  revert k. induction d as [|d IH]; intros k Hk Hbound Hbelow.
  - exists k. cbn. rewrite Z.add_0_r in Hbound.
    destruct (Z.ltb_spec (2 ^ k) n_core); [lia | done].
  - cbn [n_L0_loop]. destruct (Z.ltb_spec (2 ^ k) n_core) as [Hlt|Hge].
    + destruct (IH (k + 1)) as (m & Hm & Hloop & Hreach & Hmin).
      * lia.
      * by replace (k + 1 + Z.of_nat d) with (k + Z.of_nat (S d)) by lia.
      * intros j Hj. destruct (decide (j = k)) as [->|]; [done |].
        apply Hbelow. lia.
      * exists m. split_and!; [lia | | done | done].
        rewrite Z.shiftl_mul_pow2 by lia.
        replace (2 ^ k * 2 ^ 1) with (2 ^ (k + 1))
          by (rewrite Z.pow_add_r by lia; lia).
        done.
    + exists k. by split_and!; [lia | | lia |].
Qed.

(** [n_L0_required] returns, and returns the smallest power of two that
    is at least [n_core]. *)
Lemma n_L0_required_smallest (n_core : Z) :
  ∃ m, 0 ≤ m
       ∧ (∀ fuel, (S (Z.to_nat n_core) ≤ fuel)%nat →
                  n_L0_required fuel n_core = Some (2 ^ m))
       ∧ n_core ≤ 2 ^ m
       ∧ ∀ j, 0 ≤ j → n_core ≤ 2 ^ j → 2 ^ m ≤ 2 ^ j.
Proof.
  destruct (n_L0_loop_stops n_core (Z.to_nat n_core) 0)
    as (m & Hm & Hloop & Hreach & Hmin); [done | | lia |].
  - destruct (decide (n_core ≤ 0)) as [Hneg|Hpos].
    + pose proof (Z.pow_pos_nonneg 2 (0 + Z.of_nat (Z.to_nat n_core))). lia.
    + rewrite Z.add_0_l, Z2Nat.id by lia.
      pose proof (Z.pow_gt_lin_r 2 n_core). lia.
  - exists m. split_and!; [done | | done |].
    + intros fuel Hfuel. unfold n_L0_required.
      by eapply n_L0_loop_mono.
    + intros j Hj Hreach'. destruct (decide (j < m)) as [Hlt|Hge].
      * specialize (Hmin j). lia.
      * apply Z.pow_le_mono_r; lia.
Qed.

(** With a positive branching factor a level's count never fails. *)
Lemma n_next_positive (n_prev : Z) :
  n_next F n_prev = Ok (if n_prev <? F then 1 else n_prev `div` F).
Proof.
  unfold n_next, floordiv.
  destruct (n_prev <? F); [done |].
  destruct (Z.eqb_spec F 0); [lia | done].
Qed.

Lemma get_routing_consumption_returns (fuel : nat) (n_core v : Z) :
  n_L0_required fuel n_core = Some v →
  ∃ rc, get_routing_consumption F fuel n_core = Some (Ok rc)
        ∧ n_L0 rc = v
        ∧ n_next F (n_L0 rc) = Ok (n_L1 rc)
        ∧ n_next F (n_L1 rc) = Ok (n_L2 rc)
        ∧ n_next F (n_L2 rc) = Ok (n_L3 rc)
        ∧ n_next F (n_L3 rc) = Ok (n_L4 rc).
Proof.
  intros Hv. unfold get_routing_consumption. rewrite Hv.
  repeat (rewrite n_next_positive; cbn [mbind result_bind]).
  eexists. split; [reflexivity |]. cbn.
  by rewrite !n_next_positive.
Qed.
(** The result depends on the fuel only through [n_L0_required]. *)
Lemma get_routing_consumption_fuel (fuel fuel' : nat) (n_core v : Z) :
  n_L0_required fuel n_core = Some v →
  n_L0_required fuel' n_core = Some v →
  get_routing_consumption F fuel' n_core = get_routing_consumption F fuel n_core.
Proof. intros H H'. unfold get_routing_consumption. by rewrite H, H'. Qed.

(** C7. The [n_L0] field of [get_routing_consumption(n_core)] is the
    smallest power of two that is at least [n_core]; for [n_core] in
    1, 5, 8, 20, 32, 33 it is 1, 8, 8, 32, 32, 64.  The branching factor
    is positive, as the hardware parameters have it. *)
Theorem n_L0_smallest_power_of_two (n_core : Z) :
  (∃ (fuel0 : nat) (rc : RoutingCost.t) (m : Z),
      (∀ fuel, (fuel0 ≤ fuel)%nat →
               get_routing_consumption F fuel n_core = Some (Ok rc))
      ∧ 0 ≤ m
      ∧ n_L0 rc = 2 ^ m
      ∧ n_core ≤ n_L0 rc
      ∧ ∀ j, 0 ≤ j → n_core ≤ 2 ^ j → n_L0 rc ≤ 2 ^ j)
  ∧ (∀ fuel, (7 ≤ fuel)%nat →
             (λ n, n_L0_of (get_routing_consumption F fuel n))
               <$> [1; 5; 8; 20; 32; 33]
             = Some <$> [1; 8; 8; 32; 32; 64]).
Proof.
  split.
  - destruct (n_L0_required_smallest n_core) as (m & Hm & Hret & Hreach & Hmin).
    destruct (get_routing_consumption_returns (S (Z.to_nat n_core)) n_core
                (2 ^ m)) as (rc & Hgrc & Hrc & _); [by apply Hret |].
    exists (S (Z.to_nat n_core)), rc, m.
    rewrite Hrc. split_and!; [| done ..].
    intros fuel Hfuel.
    rewrite (get_routing_consumption_fuel (S (Z.to_nat n_core)) fuel
               n_core (2 ^ m)); [done | by apply Hret ..].
  - intros fuel Hfuel.
    assert (Hex : ∀ n v, n_L0_required 7 n = Some v →
              n_L0_of (get_routing_consumption F fuel n) = Some v).
    { intros n v Hv.
      destruct (get_routing_consumption_returns fuel n v)
        as (rc & -> & <- & _); [| done].
      by eapply n_L0_loop_mono. }
    cbn [fmap list_fmap].
    by rewrite (Hex 1 1), (Hex 5 8), (Hex 8 8), (Hex 20 32), (Hex 32 32),
      (Hex 33 64).
Qed.


(** C8. For each level [L] in 1..4 the [n_L] field of
    [get_routing_consumption(n_core)] is 1 when the count of level [L-1]
    is below the branching factor [F], and that count divided by [F]
    (integer division) otherwise. *)
Theorem level_counts_divide (n_core : Z) :
  ∃ (fuel0 : nat) (rc : RoutingCost.t),
    (∀ fuel, (fuel0 ≤ fuel)%nat →
             get_routing_consumption F fuel n_core = Some (Ok rc))
    ∧ ∀ L : nat, (1 ≤ L ≤ 4)%nat →
        ∃ prev cur,
          to_list rc !! (L - 1)%nat = Some prev
          ∧ to_list rc !! L = Some cur
          ∧ (prev < F → cur = 1)
          ∧ (F ≤ prev → cur = prev `div` F).
Proof.
  destruct (n_L0_required_smallest n_core) as (m & _ & Hret & _).
  destruct (get_routing_consumption_returns (S (Z.to_nat n_core)) n_core
              (2 ^ m)) as (rc & Hrc & Hv & H1 & H2 & H3 & H4);
    [by apply Hret |].
  exists (S (Z.to_nat n_core)), rc. split.
  - intros fuel Hfuel.
    by rewrite (get_routing_consumption_fuel (S (Z.to_nat n_core)) fuel
                  n_core (2 ^ m)); [| apply Hret ..].
  - rewrite n_next_positive in H1, H2, H3, H4.
    assert (Hstep : ∀ p c, Ok (if p <? F then 1 else p `div` F) = Ok c →
              (p < F → c = 1) ∧ (F ≤ p → c = p `div` F)).
    { intros p c [= <-]. destruct (Z.ltb_spec p F); lia. }
    intros L HL.
    assert (L = 1 ∨ L = 2 ∨ L = 3 ∨ L = 4)%nat as [->|[->|[->| ->]]] by lia;
      cbn; eexists _, _; (split; [reflexivity |]); (split; [reflexivity |]);
      first [ exact (Hstep _ _ H1) | exact (Hstep _ _ H2)
            | exact (Hstep _ _ H3) | exact (Hstep _ _ H4) ].
Qed.
End consumption.

Lemma n_L0_smallest_power_of_two_witness :
  0 < 4
  ∧ ∃ (fuel0 : nat) (rc : RoutingCost.t) (m : Z),
      (∀ fuel, (fuel0 ≤ fuel)%nat →
               get_routing_consumption 4 fuel 20 = Some (Ok rc))
      ∧ 0 ≤ m
      ∧ RoutingCost.n_L0 rc = 2 ^ m
      ∧ 20 ≤ RoutingCost.n_L0 rc
      ∧ ∀ j, 0 ≤ j → 20 ≤ 2 ^ j → RoutingCost.n_L0 rc ≤ 2 ^ j.
Proof.
  assert (H : 0 < 4) by lia.
  split; [exact H |]. exact (proj1 (n_L0_smallest_power_of_two 4 H 20)).
Defined.

Lemma level_counts_divide_witness :
  0 < 4
  ∧ ∃ (fuel0 : nat) (rc : RoutingCost.t),
      (∀ fuel, (fuel0 ≤ fuel)%nat →
               get_routing_consumption 4 fuel 33 = Some (Ok rc))
      ∧ ∀ L : nat, (1 ≤ L ≤ 4)%nat →
          ∃ prev cur,
            RoutingCost.to_list rc !! (L - 1)%nat = Some prev
            ∧ RoutingCost.to_list rc !! L = Some cur
            ∧ (prev < 4 → cur = 1)
            ∧ (4 ≤ prev → cur = prev `div` 4).
Proof.
  assert (H : 0 < 4) by lia.
  split; [exact H |]. exact (level_counts_divide 4 H 33).
Defined.

(** ** Multicast group engine: expansion *)

Section expansion.

(** The bit test of the loop reads bit [k] of the mask. *)
Lemma truthy_bit (m k : Z) :
  0 ≤ k → truthy (Z.land (Z.shiftr m k) 1) = Z.testbit m k.
Proof.
  intros Hk. unfold truthy.
  rewrite <- (Z.add_0_l k) at 2. rewrite <- Z.shiftr_spec by lia.
  rewrite Z.bit0_odd. change 1 with (Z.ones 1).
  rewrite Z.land_ones by lia. change (2 ^ 1) with 2.
  rewrite Zmod_odd. by destruct (Z.odd (Z.shiftr m k)).
Qed.

(** With [temp] empty on entry, one iteration doubles each axis on its own
    and leaves [temp] empty. *)
Lemma mc_step_axes (rid : RId) (X Y : gset Z) (lx : Z) :
  0 ≤ lx →
  mc_step rid (mkState X Y ∅) lx
  = mkState (double_on (rid_x rid) X lx) (double_on (rid_y rid) Y lx) ∅.
Proof.
  intros Hlx. unfold mc_step, double_on, add_flipped.
  rewrite !truthy_bit by done.
  destruct (Z.testbit (rid_x rid) lx), (Z.testbit (rid_y rid) lx); cbn;
    by rewrite ?(left_id_L ∅ (∪)).
Qed.

Lemma mc_loop_axes (rid : RId) (ks : list Z) (X Y : gset Z) :
  Forall (λ k, 0 ≤ k) ks →
  foldl (mc_step rid) (mkState X Y ∅) ks
  = mkState (foldl (double_on (rid_x rid)) X ks)
            (foldl (double_on (rid_y rid)) Y ks) ∅.
Proof.
  intros Hks. revert X Y.
  induction Hks as [|k ks Hk _ IH]; intros X Y; [done |].
  cbn [foldl]. by rewrite mc_step_axes, IH.
Qed.

Lemma range_5 : range 5 = [0; 1; 2; 3; 4].
Proof. reflexivity. Qed.

(** The two nested loops that build [cores] form a cartesian product. *)
Lemma elem_of_cores (X Y : gset Z) (c : Coord) :
  c ∈ set_bind (λ x, set_map (D := gset Coord) (λ y, mkCoord x y) Y) X
  ↔ coord_x c ∈ X ∧ coord_y c ∈ Y.
Proof.
  destruct c as [x y]. set_unfold. split.
  - by intros (x' & Hx & y' & [= -> ->] & Hy).
  - intros [Hx Hy]. exists x. split; [done |]. by exists y.
Qed.

Lemma elem_of_product (X Y : gset Z) (c : Coord) :
  c ∈ set_map (D := gset Coord) (λ p : Z * Z, mkCoord p.1 p.2) (cprod X Y)
  ↔ coord_x c ∈ X ∧ coord_y c ∈ Y.
Proof.
  destruct c as [x y]. set_unfold. split.
  - by intros ([x' y'] & [= -> ->] & Hx & Hy).
  - intros [Hx Hy]. by exists (x, y).
Qed.

(** The code's interleaved loop computes the specification's expansion. *)
Lemma get_multicast_cores_expand (base : Coord) (rid : RId) :
  get_multicast_cores base rid = expand_multicast_group base rid.
Proof.
  unfold get_multicast_cores, expand_multicast_group, candidates.
  rewrite mc_loop_axes by (rewrite range_5; repeat constructor; lia).
  cbn [corex corey]. rewrite range_5.
  apply set_eq. intros c. by rewrite elem_of_cores, elem_of_product.
Qed.

(** Membership in the expansion, axis by axis. *)
Lemma elem_of_get_multicast_cores (base : Coord) (rid : RId) (c : Coord) :
  c ∈ get_multicast_cores base rid
  ↔ coord_x c ∈ candidates (coord_x base) (rid_x rid) [0; 1; 2; 3; 4]
    ∧ coord_y c ∈ candidates (coord_y base) (rid_y rid) [0; 1; 2; 3; 4].
Proof. rewrite get_multicast_cores_expand. apply elem_of_product. Qed.

(** Doubling looks at the mask only through the tested bit. *)
Lemma candidates_agree (m m' : Z) (ks : list Z) (s : gset Z) :
  Forall (λ k, Z.testbit m k = Z.testbit m' k) ks →
  foldl (double_on m) s ks = foldl (double_on m') s ks.
Proof.
  intros Hks. revert s.
  induction Hks as [|k ks Hk _ IH]; intros s; [done |].
  cbn [foldl]. unfold double_on at 2 4. by rewrite Hk, IH.
Qed.

Lemma land_31_low_bits (m : Z) :
  Forall (λ k, Z.testbit m k = Z.testbit (Z.land m 31) k) [0; 1; 2; 3; 4].
Proof.
  repeat constructor; rewrite Z.land_spec; cbn; by rewrite andb_true_r.
Qed.

(** C10. Mask bits at position 5 and above are ignored: the expansion of
    [rid] is the expansion of [rid] cut down to its low five bits. *)
Theorem get_multicast_cores_ignores_high_bits (base : Coord) (rid : RId) :
  get_multicast_cores base rid = get_multicast_cores base (low5 rid).
Proof.
  rewrite !get_multicast_cores_expand.
  unfold expand_multicast_group, candidates, low5. cbn [rid_x rid_y].
  by rewrite (candidates_agree _ _ _ _ (land_31_low_bits (rid_x rid))),
    (candidates_agree _ _ _ _ (land_31_low_bits (rid_y rid))).
Qed.
End expansion.

(** ** Multicast group engine: the replication mask *)

Section replication_id.

Lemma RId_or_assoc (a b c : RId) :
  RId_or a (RId_or b c) = RId_or (RId_or a b) c.
Proof. unfold RId_or. cbn. by rewrite !Z.lor_assoc. Qed.

Lemma RId_or_zero_l (a : RId) : RId_or (mkRId 0 0) a = a.
Proof. by destruct a. Qed.

Lemma RId_or_zero_r (a : RId) : RId_or a (mkRId 0 0) = a.
Proof. destruct a. unfold RId_or. cbn. by rewrite !Z.lor_0_r. Qed.

(** The accumulating loop computes the OR of the XORs. *)
Lemma accumulate_big_or (base : Coord) (rest : list Coord) (acc : RId) :
  foldl (λ rid coord, RId_or rid (Coord_xor base coord)) acc rest
  = RId_or acc (big_or (Coord_xor base <$> rest)).
Proof.
  revert acc. induction rest as [|c rest IH]; intros acc; cbn.
  - by rewrite RId_or_zero_r.
  - by rewrite IH, RId_or_assoc.
Qed.

Lemma get_replication_id_cons (base : Coord) (rest : list Coord) :
  get_replication_id (base :: rest)
  = Ok (big_or (Coord_xor base <$> rest)).
Proof.
  unfold get_replication_id.
  assert (getitem (base :: rest) 0 = Ok base) as -> by reflexivity.
  cbn [mbind result_bind drop].
  by rewrite accumulate_big_or, RId_or_zero_l.
Qed.

(** A bit of the OR is set exactly when it is set in one of the masks. *)
Lemma big_or_bits (l : list RId) (k : Z) :
  (Z.testbit (rid_x (big_or l)) k = true
   ↔ ∃ r, r ∈ l ∧ Z.testbit (rid_x r) k = true)
  ∧ (Z.testbit (rid_y (big_or l)) k = true
     ↔ ∃ r, r ∈ l ∧ Z.testbit (rid_y r) k = true).
Proof.
  induction l as [|r l [IHx IHy]]; cbn.
  - rewrite Z.bits_0. split; (split; [done |]); by intros (? & ?%elem_of_nil & _).
  - rewrite !Z.lor_spec, !orb_true_iff, IHx, IHy.
    split; (split;
      [ intros [?|(r' & ? & ?)]; [exists r | exists r']; by rewrite elem_of_cons; auto
      | intros (r' & [->|?]%elem_of_cons & ?); [by left | right; by exists r'] ]).
Qed.

(** The bits of the mask are the positions where a coordinate after the
    first differs from the first. *)
Lemma mask_bits (base : Coord) (rest : list Coord) (k : Z) :
  (Z.testbit (rid_x (big_or (Coord_xor base <$> rest))) k = true
   ↔ ∃ c, c ∈ rest ∧ Z.testbit (coord_x c) k ≠ Z.testbit (coord_x base) k)
  ∧ (Z.testbit (rid_y (big_or (Coord_xor base <$> rest))) k = true
     ↔ ∃ c, c ∈ rest ∧ Z.testbit (coord_y c) k ≠ Z.testbit (coord_y base) k).
Proof.
  destruct (big_or_bits (Coord_xor base <$> rest) k) as [-> ->].
  split; (split;
    [ intros (r & (c & -> & Hc)%list_elem_of_fmap & Hbit); exists c;
      split; [done |]; cbn in Hbit; rewrite Z.lxor_spec in Hbit;
      by destruct (Z.testbit _ k), (Z.testbit _ k)
    | intros (c & Hc & Hne); exists (Coord_xor base c);
      split; [by apply list_elem_of_fmap_2 |]; cbn; rewrite Z.lxor_spec;
      by destruct (Z.testbit _ k), (Z.testbit _ k) ]).
Qed.

(** C3. [get_replication_id] fails exactly on the empty sequence, and
    then with [IndexError]; on a non-empty sequence it returns the OR,
    over the coordinates after the first, of their per-axis XOR with the
    first.  One coordinate gives the zero mask, and [(0,0), (1,1)] gives
    the mask with bit 0 set on both axes. *)
Theorem get_replication_id_or_of_xors (coords : list Coord) :
  (raises (get_replication_id coords) ↔ coords = [])
  ∧ (get_replication_id coords = Raise IndexError ↔ coords = [])
  ∧ (∀ base rest, coords = base :: rest →
       get_replication_id coords = Ok (big_or (Coord_xor base <$> rest))
       ∧ ∃ rid, get_replication_id coords = Ok rid
           ∧ ∀ k, (Z.testbit (rid_x rid) k = true
                   ↔ ∃ c, c ∈ rest
                          ∧ Z.testbit (coord_x c) k
                            ≠ Z.testbit (coord_x base) k)
                  ∧ (Z.testbit (rid_y rid) k = true
                     ↔ ∃ c, c ∈ rest
                            ∧ Z.testbit (coord_y c) k
                              ≠ Z.testbit (coord_y base) k))
  ∧ (∀ c, get_replication_id [c] = Ok (mkRId 0 0))
  ∧ get_replication_id [mkCoord 0 0; mkCoord 1 1] = Ok (mkRId 1 1).
Proof.
  split_and!.
  - destruct coords as [|base rest].
    + split; [done |]. intros _. by exists IndexError.
    + rewrite get_replication_id_cons. split; [by intros [e ?] | done].
  - destruct coords as [|base rest]; [done |].
    by rewrite get_replication_id_cons.
  - intros base rest ->. rewrite get_replication_id_cons.
    split; [done |]. eexists. split; [reflexivity |].
    intros k. apply mask_bits.
  - intros c. by rewrite get_replication_id_cons.
  - reflexivity.
Qed.
End replication_id.

(** ** Multicast group engine: mask and expansion together *)

Section round_trip.

Lemma testbit_flip (k j : Z) :
  0 ≤ k → Z.testbit (Z.shiftl 1 k) j = bool_decide (j = k).
Proof.
  intros Hk. rewrite Z.shiftl_1_l, Z.pow2_bits_eqb by done.
  destruct (Z.eqb_spec k j) as [->|Hne];
    [by rewrite bool_decide_eq_true_2 | by rewrite bool_decide_eq_false_2].
Qed.

Lemma elem_of_double_on (m : Z) (s : gset Z) (k v : Z) :
  v ∈ double_on m s k
  ↔ v ∈ s ∨ (Z.testbit m k = true ∧ Z.lxor v (Z.shiftl 1 k) ∈ s).
Proof.
  unfold double_on.
  destruct (Z.testbit m k); [| split; [by left | by intros [?|[? ?]]]].
  rewrite elem_of_union, elem_of_map. split.
  - intros [?|(u & -> & Hu)]; [by left | right]. split; [done |].
    by rewrite Z.lxor_assoc, Z.lxor_nilpotent, Z.lxor_0_r.
  - intros [?|[_ Hu]]; [by left | right].
    exists (Z.lxor v (Z.shiftl 1 k)). split; [| done].
    by rewrite Z.lxor_assoc, Z.lxor_nilpotent, Z.lxor_0_r.
Qed.

(** After the bit positions [0..n-1], the candidates are the values that
    differ from [b] only at positions below [n] that are set in the mask. *)
Lemma elem_of_candidates (b m : Z) (n : nat) (v : Z) :
  v ∈ candidates b m (range n)
  ↔ ∀ j, 0 ≤ j → Z.testbit (Z.lxor v b) j = true →
         j < Z.of_nat n ∧ Z.testbit m j = true.
Proof.
  revert v. induction n as [|n IH]; intros v.
  - cbn. rewrite elem_of_singleton. split.
    + intros -> j _. by rewrite Z.lxor_nilpotent, Z.bits_0.
    + intros Hbits. apply Z.lxor_eq, Z.bits_inj'. intros j Hj.
      rewrite Z.bits_0. destruct (Z.testbit _ j) eqn:E; [| done].
      apply Hbits in E; lia.
  - unfold candidates, range in *. rewrite seq_S, fmap_app, foldl_app.
    cbn [fmap list_fmap foldl]. rewrite elem_of_double_on, !IH.
    assert (Hflip : ∀ j, 0 ≤ j →
              Z.testbit (Z.lxor (Z.lxor v (Z.shiftl 1 (Z.of_nat n))) b) j
              = xorb (Z.testbit (Z.lxor v b) j) (bool_decide (j = Z.of_nat n))).
    { intros j Hj. rewrite !Z.lxor_spec, testbit_flip by lia.
      by destruct (Z.testbit v j), (Z.testbit b j), (bool_decide _). }
    split.
    + intros [Hv|[Hm Hu]] j Hj Hbit.
      * destruct (Hv j Hj Hbit). split; [lia | done].
      * destruct (decide (j = Z.of_nat n)) as [->|Hne]; [split; [lia | done] |].
        destruct (Hu j Hj) as [? ?]; [| split; [lia | done]].
        by rewrite Hflip, Hbit, bool_decide_eq_false_2.
    + intros Hv.
      destruct (Z.testbit (Z.lxor v b) (Z.of_nat n)) eqn:En.
      * right. destruct (Hv (Z.of_nat n)) as [_ Hm]; [lia | done |].
        split; [done |]. intros j Hj. rewrite Hflip by done.
        case_bool_decide as Hjn; [subst j; by rewrite En |].
        rewrite xorb_false_r. intros Hbit.
        destruct (Hv j Hj Hbit). split; [lia | done].
      * left. intros j Hj Hbit. destruct (Hv j Hj Hbit). split; [| done].
        destruct (decide (j = Z.of_nat n)) as [->|]; [congruence | lia].
Qed.

Lemma high_bits_agree (u v j : Z) :
  Z.shiftr u 5 = Z.shiftr v 5 → 5 ≤ j → Z.testbit u j = Z.testbit v j.
Proof.
  intros Heq Hj. replace j with (j - 5 + 5) by lia.
  rewrite <- !Z.shiftr_spec by lia. by rewrite Heq.
Qed.

(** One axis of the superset property. *)
Lemma axis_covered (b m v : Z) :
  Z.shiftr b 5 = Z.shiftr v 5 →
  (∀ j, Z.testbit v j ≠ Z.testbit b j → Z.testbit m j = true) →
  v ∈ candidates b m [0; 1; 2; 3; 4].
Proof.
  intros Hhigh Hmask. rewrite <- range_5. apply elem_of_candidates.
  intros j Hj Hbit. rewrite Z.lxor_spec in Hbit.
  assert (Hne : Z.testbit v j ≠ Z.testbit b j)
    by (by destruct (Z.testbit v j), (Z.testbit b j)).
  split; [| by apply Hmask].
  destruct (decide (j < 5)) as [|Hge]; [done |].
  destruct Hne. symmetry. apply high_bits_agree; [done | lia].
Qed.

Lemma in_interval_shiftr (i a v : Z) :
  0 ≤ i → in_interval i a v ↔ Z.shiftr v i = a.
Proof.
  intros Hi. unfold in_interval. rewrite Z.shiftr_div_pow2 by done.
  pose proof (Z.pow_pos_nonneg 2 i) as Hpos.
  pose proof (Z.div_mod v (2 ^ i)) as Hdm.
  pose proof (Z.mod_pos_bound v (2 ^ i)) as Hmod.
  split.
  - intros Hv. symmetry. apply (Z.div_unique v (2 ^ i) a (v - a * 2 ^ i)); lia.
  - intros <-. lia.
Qed.

(** One axis of the exactness property: when the mask only records
    differences among members of an aligned interval, the candidates stay
    inside that interval. *)
Lemma axis_inside (b m i a v : Z) :
  0 ≤ i →
  in_interval i a b →
  (∀ j, Z.testbit m j = true →
        ∃ c, in_interval i a c ∧ Z.testbit c j ≠ Z.testbit b j) →
  v ∈ candidates b m [0; 1; 2; 3; 4] →
  in_interval i a v.
Proof.
  intros Hi Hb Hmask Hv. rewrite <- range_5 in Hv.
  rewrite in_interval_shiftr in Hb |- * by done. subst a.
  apply Z.bits_inj'. intros n Hn. rewrite !Z.shiftr_spec by done.
  destruct (decide (Z.testbit v (n + i) = Z.testbit b (n + i)))
    as [|Hne]; [done |].
  assert (Hbit : Z.testbit (Z.lxor v b) (n + i) = true).
  { rewrite Z.lxor_spec.
    by destruct (Z.testbit v (n + i)), (Z.testbit b (n + i)). }
  apply (elem_of_candidates b m 5 v) in Hbit as [_ Hm]; [| done | lia].
  destruct (Hmask _ Hm) as (c & Hc & Hcb).
  rewrite in_interval_shiftr in Hc by done.
  destruct Hcb. replace (Z.testbit c (n + i)) with (Z.testbit (Z.shiftr c i) n)
    by (by rewrite Z.shiftr_spec).
  by rewrite Hc, Z.shiftr_spec.
Qed.
Lemma size_flipped (k : Z) (s : gset Z) :
  size (set_map (D := gset Z) (λ v, Z.lxor v (Z.shiftl 1 k)) s) = size s.
Proof.
  unfold set_map. rewrite size_list_to_set.
  - by rewrite length_fmap.
  - apply NoDup_fmap_2; [| apply NoDup_elements].
    intros u v Huv. cbv beta in Huv.
    assert (Hinv : ∀ w, Z.lxor (Z.lxor w (Z.shiftl 1 k)) (Z.shiftl 1 k) = w)
      by (intros w; by rewrite Z.lxor_assoc, Z.lxor_nilpotent, Z.lxor_0_r).
    by rewrite <- (Hinv u), Huv, Hinv.
Qed.

(** Each bit position set in the mask doubles the candidate set: the
    values added are all new. *)
Lemma candidates_double (b m : Z) (n : nat) :
  Z.testbit m (Z.of_nat n) = true →
  size (candidates b m (range (S n))) = (2 * size (candidates b m (range n)))%nat.
Proof.
  intros Hm. unfold candidates, range.
  rewrite seq_S, fmap_app, foldl_app. cbn [fmap list_fmap foldl].
  change (0 + n)%nat with n.
  unfold double_on at 1. rewrite Hm, size_union, size_flipped; [lia |].
  intros v Hv (u & -> & Hu)%elem_of_map.
  pose proof (proj1 (elem_of_candidates b m n _) Hv (Z.of_nat n)) as Hvn.
  pose proof (proj1 (elem_of_candidates b m n _) Hu (Z.of_nat n)) as Hun.
  rewrite !Z.lxor_spec, testbit_flip, bool_decide_eq_true_2 in Hvn by lia.
  rewrite Z.lxor_spec in Hun.
  destruct (Z.testbit u (Z.of_nat n)), (Z.testbit b (Z.of_nat n)); cbn in *;
    first [ destruct Hvn; [lia | done | lia] | destruct Hun; [lia | done | lia] ].
Qed.

(** C2. [get_multicast_cores] returns the cartesian product of the x- and
    y-candidate sets, each grown from the base's value by adding, for each
    bit position [k] of 0..4 set in the mask, [v XOR (1 << k)] for every
    candidate [v], which doubles the set; from (0,0) a mask with only x
    bit 0 gives {(0,0),(1,0)} and bit 0 on both axes gives
    {(0,0),(0,1),(1,0),(1,1)}. *)
Theorem get_multicast_cores_is_product (base : Coord) (rid : RId) :
  get_multicast_cores base rid
  = set_map (λ p : Z * Z, mkCoord p.1 p.2)
      (cprod (candidates (coord_x base) (rid_x rid) [0; 1; 2; 3; 4])
             (candidates (coord_y base) (rid_y rid) [0; 1; 2; 3; 4]))
  ∧ (∀ c, c ∈ get_multicast_cores base rid
          ↔ coord_x c ∈ candidates (coord_x base) (rid_x rid) [0; 1; 2; 3; 4]
            ∧ coord_y c ∈ candidates (coord_y base) (rid_y rid) [0; 1; 2; 3; 4])
  ∧ (∀ (b m : Z) (k : nat),
        candidates b m (range (S k))
        = double_on m (candidates b m (range k)) (Z.of_nat k)
        ∧ (Z.testbit m (Z.of_nat k) = true →
           size (candidates b m (range (S k)))
           = (2 * size (candidates b m (range k)))%nat)
        ∧ (Z.testbit m (Z.of_nat k) = false →
           candidates b m (range (S k)) = candidates b m (range k)))
  ∧ get_multicast_cores (mkCoord 0 0) (mkRId 1 0)
    = {[mkCoord 0 0; mkCoord 1 0]}
  ∧ get_multicast_cores (mkCoord 0 0) (mkRId 1 1)
    = {[mkCoord 0 0; mkCoord 0 1; mkCoord 1 0; mkCoord 1 1]}.
Proof.
  split_and!.
  - apply get_multicast_cores_expand.
  - apply elem_of_get_multicast_cores.
  - intros b m k.
    assert (Hsnoc : candidates b m (range (S k))
                    = double_on m (candidates b m (range k)) (Z.of_nat k)).
    { unfold candidates, range. by rewrite seq_S, fmap_app, foldl_app. }
    split_and!; [done | apply candidates_double |].
    intros Hm. rewrite Hsnoc. unfold double_on. by rewrite Hm.
  - by vm_compute.
  - by vm_compute.
Qed.

(** What the round trip needs of the coordinates: that they agree with the
    first one on the bits at position 5 and above, which the loop over bit
    positions 0..4 leaves alone. *)
Lemma expansion_covers_same_high_bits (base : Coord) (rest : list Coord) :
  Forall (same_high_bits base) rest →
  ∃ rid, get_replication_id (base :: rest) = Ok rid
    ∧ list_to_set (base :: rest) ⊆ get_multicast_cores base rid
    ∧ (aligned_block (list_to_set (base :: rest)) →
       get_multicast_cores base rid = list_to_set (base :: rest)).
Proof.
  intros Hhigh. rewrite Forall_forall in Hhigh.
  exists (big_or (Coord_xor base <$> rest)).
  split; [apply get_replication_id_cons |].
  assert (Hsup : list_to_set (base :: rest)
                 ⊆ get_multicast_cores base (big_or (Coord_xor base <$> rest))).
  { intros c Hc. rewrite elem_of_list_to_set in Hc.
    apply elem_of_get_multicast_cores.
    apply elem_of_cons in Hc as [->|Hc].
    - split; by apply axis_covered.
    - destruct (Hhigh c Hc) as [Hx Hy].
      split; (apply axis_covered; [done |]); intros j Hj;
        apply mask_bits; eauto. }
  split; [done |].
  intros (i & j & a & b & Hi & Hj & Hblock).
  apply set_eq. intros v. split; [| apply Hsup].
  rewrite elem_of_get_multicast_cores. intros [Hvx Hvy].
  assert (Hin : ∀ c, c ∈ base :: rest →
            in_interval i a (coord_x c) ∧ in_interval j b (coord_y c)).
  { intros c Hc. apply Hblock. by apply elem_of_list_to_set. }
  destruct (Hin base) as [Hbx Hby]; [by left |].
  apply Hblock. split.
  - refine (axis_inside _ _ i a _ Hi Hbx _ Hvx).
    intros k (c & Hc & Hne)%mask_bits. exists (coord_x c). split; [| done].
    apply Hin. by right.
  - refine (axis_inside _ _ j b _ Hj Hby _ Hvy).
    intros k (c & Hc & Hne)%mask_bits. exists (coord_y c). split; [| done].
    apply Hin. by right.
Qed.

(** Mesh coordinates have no bit at position 5 or above. *)
Lemma in_mesh_same_high_bits (base c : Coord) :
  in_mesh base → in_mesh c → same_high_bits base c.
Proof.
  assert (Hzero : ∀ v, 0 ≤ v < 32 → Z.shiftr v 5 = 0).
  { intros v Hv. apply (in_interval_shiftr 5 0 v); [lia |].
    unfold in_interval. change (2 ^ 5) with 32. lia. }
  intros [Hbx Hby] [Hcx Hcy]. unfold same_high_bits.
  by rewrite !Hzero.
Qed.

(** C1. For every non-empty sequence [coords] of mesh coordinates whose
    first element is [base], the expansion of [base] under the mask of
    [coords] contains every element of [coords]; and when [coords] forms an
    axis-aligned power-of-two block (it contains [base], its first
    element), the expansion is exactly the set of elements of [coords]. *)
Theorem expansion_covers_mesh_coords (coords : list Coord) (base : Coord) :
  head coords = Some base →
  Forall in_mesh coords →
  ∃ rid, get_replication_id coords = Ok rid
    ∧ list_to_set coords ⊆ get_multicast_cores base rid
    ∧ (aligned_block (list_to_set coords) →
       get_multicast_cores base rid = list_to_set coords).
Proof.
  intros Hhead Hmesh.
  destruct coords as [|c0 rest]; [done |]. injection Hhead as ->.
  apply expansion_covers_same_high_bits.
  apply Forall_cons in Hmesh as [Hbase Hrest].
  eapply Forall_impl; [exact Hrest |].
  intros c Hc. by apply in_mesh_same_high_bits.
Qed.

Lemma expansion_covers_mesh_coords_witness :
  let coords := [mkCoord 2 5; mkCoord 3 4; mkCoord 2 4; mkCoord 3 5] in
  head coords = Some (mkCoord 2 5)
  ∧ Forall in_mesh coords
  ∧ aligned_block (list_to_set coords)
  ∧ ∃ rid,
      get_replication_id coords = Ok rid
      ∧ list_to_set coords ⊆ get_multicast_cores (mkCoord 2 5) rid
      ∧ get_multicast_cores (mkCoord 2 5) rid = list_to_set coords.
Proof.
  intros coords.
  assert (Hhead : head coords = Some (mkCoord 2 5)) by reflexivity.
  assert (Hmesh : Forall in_mesh coords)
    by (repeat constructor; cbn; lia).
  assert (Hblock : aligned_block (list_to_set coords)).
  { exists 1, 1, 1, 2. split; [lia |]. split; [lia |].
    intros [x y]. unfold in_interval, coords. cbn [coord_x coord_y].
    rewrite elem_of_list_to_set, !elem_of_cons, elem_of_nil. split.
    - intros [[= -> ->]|[[= -> ->]|[[= -> ->]|[[= -> ->]|[]]]]]; lia.
    - intros [Hx Hy].
      assert (x = 2 ∨ x = 3) as [-> | ->] by lia;
        assert (y = 4 ∨ y = 5) as [-> | ->] by lia; auto 6. }
  split; [exact Hhead |]. split; [exact Hmesh |]. split; [exact Hblock |].
  destruct (expansion_covers_mesh_coords coords (mkCoord 2 5) Hhead Hmesh)
    as (rid & Hrid & Hsup & Hexact).
  exists rid. split; [exact Hrid |]. split; [exact Hsup |].
  exact (Hexact Hblock).
Defined.
End round_trip.

(** * Further properties of the module *)

(** ** Enumerations and the child order *)

Section enumerations.
Import RoutingDirection.

(** X2. Whatever the axis priority, [ROUTING_DIRECTIONS_IDX] lists each of
    the four concrete directions exactly once and never [ANY].  Under Y
    priority the entry at position [d.to_index()] is [d]; under X priority
    it is [d] with its two bits exchanged, so [to_index] matches the table
    only for X0Y0 and X1Y1. *)
Theorem ROUTING_DIRECTIONS_IDX_order (COORD_Y_PRIORITY : bool) (d : RoutingDirection.t) :
  NoDup (ROUTING_DIRECTIONS_IDX COORD_Y_PRIORITY)
  ∧ (d ∈ ROUTING_DIRECTIONS_IDX COORD_Y_PRIORITY ↔ d ≠ ANY)
  ∧ (d = ANY
     ∨ ∃ i, to_index d = Ok i
            ∧ getitem (ROUTING_DIRECTIONS_IDX true) i = Ok d
            ∧ getitem (ROUTING_DIRECTIONS_IDX false) i = Ok (transpose d)).
Proof.
  split_and!.
  - destruct COORD_Y_PRIORITY; apply (bool_decide_unpack _); by vm_compute.
  - destruct COORD_Y_PRIORITY, d; split; intros H; try done;
      first [ apply (bool_decide_unpack _); by vm_compute
            | apply (bool_decide_pack _) in H; by vm_compute in H ].
  - destruct d; [right | right | right | right | by left]; by eexists.
Qed.
End enumerations.

(** ** Resource cost: further properties *)

Section cost.
Import RoutingCost.

(** X3. [get_routing_level] never raises and never returns [L0]; it returns
    [L1] exactly when the counts of levels 1 to 4 are all at most 1, and the
    count of level 0 has no influence on the result. *)
Theorem get_routing_level_ignores_n_L0 (c : RoutingCost.t) :
  ∃ l, get_routing_level c = Ok l
       ∧ 1 ≤ RoutingLevel.value l ≤ 5
       ∧ (l = RoutingLevel.L1
          ↔ n_L1 c ≤ 1 ∧ n_L2 c ≤ 1 ∧ n_L3 c ≤ 1 ∧ n_L4 c ≤ 1)
       ∧ ∀ n, get_routing_level (mk n (n_L1 c) (n_L2 c) (n_L3 c) (n_L4 c))
              = Ok l.
Proof.
  destruct c as [c0 c1 c2 c3 c4]. cbn [n_L1 n_L2 n_L3 n_L4].
  rewrite get_routing_level_unfold. cbn [n_L0 n_L1 n_L2 n_L3 n_L4].
  destruct (Z.gtb_spec c4 1); [| destruct (Z.gtb_spec c3 1);
    [| destruct (Z.gtb_spec c2 1); [| destruct (Z.gtb_spec c1 1)]]];
    eexists; (split; [by destruct (c0 >? 1) |]);
    (split; [cbn; lia |]);
    (split; [split; [intros [=]; lia | try lia; done] |]);
    intros n; rewrite get_routing_level_unfold; cbn [n_L0 n_L1 n_L2 n_L3 n_L4];
    repeat (match goal with
            | |- context [?a >? 1] => destruct (Z.gtb_spec a 1); try lia
            end); done.
Qed.

Variable F : Z.
Hypothesis F_pos : 0 < F.

(** The count of the next level, as the code computes it when [F] is
    positive. *)
Let next (n : Z) : Z := if n <? F then 1 else n `div` F.

Lemma next_bounds (n : Z) : 1 ≤ n → 1 ≤ next n ≤ n.
Proof.
  intros Hn. unfold next. destruct (Z.ltb_spec n F); [lia |]. split.
  - apply Z.div_le_lower_bound; lia.
  - apply Z.div_le_upper_bound; [lia | nia].
Qed.

(** The cost of [n_core], with what is known of its fields. *)
Lemma cost_exists (n_core : Z) :
  ∃ rc m, returns_cost F n_core rc
    ∧ 0 ≤ m
    ∧ n_L0 rc = 2 ^ m
    ∧ n_core ≤ 2 ^ m
    ∧ (∀ j, 0 ≤ j < m → 2 ^ j < n_core)
    ∧ n_L1 rc = next (n_L0 rc)
    ∧ n_L2 rc = next (n_L1 rc)
    ∧ n_L3 rc = next (n_L2 rc)
    ∧ n_L4 rc = next (n_L3 rc).
Proof.
  destruct (n_L0_required_smallest n_core) as (m & Hm & Hret & Hreach & Hmin).
  destruct (get_routing_consumption_returns F F_pos (S (Z.to_nat n_core))
              n_core (2 ^ m)) as (rc & Hrc & Hv & H1 & H2 & H3 & H4);
    [by apply Hret |].
  rewrite (n_next_positive F F_pos) in H1, H2, H3, H4.
  injection H1 as H1. injection H2 as H2. injection H3 as H3.
  injection H4 as H4. unfold next.
  exists rc, m. split_and!; [| done | done | done | | done ..].
  - exists (S (Z.to_nat n_core)). intros fuel Hfuel.
    by rewrite (get_routing_consumption_fuel F (S (Z.to_nat n_core)) fuel
                  n_core (2 ^ m)); [| apply Hret ..].
  - intros j Hj. destruct (Z.lt_ge_cases (2 ^ j) n_core) as [|Hge]; [done |].
    apply Hmin in Hge; [| lia].
    pose proof (Z.pow_lt_mono_r 2 j m). lia.
Qed.

Lemma returns_cost_unique (n_core : Z) (rc rc' : RoutingCost.t) :
  returns_cost F n_core rc → returns_cost F n_core rc' → rc = rc'.
Proof.
  intros [f Hf] [f' Hf'].
  specialize (Hf (f `max` f')%nat ltac:(lia)).
  specialize (Hf' (f `max` f')%nat ltac:(lia)).
  rewrite Hf in Hf'. by injection Hf'.
Qed.

(** X4. The counts of a cost are positive and do not grow from a level to
    the next: [n_L0 ≥ n_L1 ≥ n_L2 ≥ n_L3 ≥ n_L4 ≥ 1]. *)
Theorem cost_counts_decrease (n_core : Z) :
  ∃ rc, returns_cost F n_core rc
    ∧ 1 ≤ n_L4 rc ∧ n_L4 rc ≤ n_L3 rc ∧ n_L3 rc ≤ n_L2 rc
    ∧ n_L2 rc ≤ n_L1 rc ∧ n_L1 rc ≤ n_L0 rc.
Proof.
  destruct (cost_exists n_core)
    as (rc & m & Hrc & Hm & H0 & _ & _ & H1 & H2 & H3 & H4).
  exists rc. split; [done |].
  assert (1 ≤ n_L0 rc) by (rewrite H0; pose proof (Z.pow_pos_nonneg 2 m); lia).
  pose proof (next_bounds (n_L0 rc)). rewrite <- H1 in *.
  pose proof (next_bounds (n_L1 rc)). rewrite <- H2 in *.
  pose proof (next_bounds (n_L2 rc)). rewrite <- H3 in *.
  pose proof (next_bounds (n_L3 rc)). rewrite <- H4 in *.
  lia.
Qed.
Lemma next_one : next 1 = 1.
Proof.
  unfold next. destruct (Z.ltb_spec 1 F); [done |].
  assert (F = 1) as -> by lia. done.
Qed.

Lemma next_mono (a b : Z) : 1 ≤ a → a ≤ b → next a ≤ next b.
Proof.
  intros Ha Hab. unfold next.
  destruct (Z.ltb_spec a F), (Z.ltb_spec b F); try lia.
  - apply Z.div_le_lower_bound; lia.
  - apply Z.div_le_mono; lia.
Qed.

(** X5. The leaf count wastes less than half: for [n_core ≥ 1] it lies in
    [n_core, 2 * n_core), and it is [n_core] itself when [n_core] is a power
    of two.  For [n_core ≤ 1], zero and negative requests included, the cost
    is one node at every level. *)
Theorem cost_n_L0_tight (n_core : Z) :
  ∃ rc, returns_cost F n_core rc
    ∧ (n_core ≤ 1 → rc = mk 1 1 1 1 1)
    ∧ (1 ≤ n_core → n_core ≤ n_L0 rc < 2 * n_core)
    ∧ (∀ k, 0 ≤ k → n_core = 2 ^ k → n_L0 rc = n_core).
Proof.
  destruct (cost_exists n_core)
    as (rc & m & Hrc & Hm & H0 & Hreach & Hmin & H1 & H2 & H3 & H4).
  exists rc. split_and!; [done | | |].
  - intros Hle. assert (m = 0) as ->.
    { destruct (decide (m = 0)) as [|Hne]; [done |].
      specialize (Hmin 0). change (2 ^ 0) with 1 in Hmin. lia. }
    change (2 ^ 0) with 1 in H0.
    rewrite H0, next_one in H1. rewrite H1, next_one in H2.
    rewrite H2, next_one in H3. rewrite H3, next_one in H4.
    destruct rc; cbn in *; congruence.
  - intros Hge. rewrite H0. split; [done |].
    destruct (decide (m = 0)) as [->|Hne]; [change (2 ^ 0) with 1; lia |].
    specialize (Hmin (m - 1)).
    replace (2 ^ m) with (2 * 2 ^ (m - 1))
      by (rewrite <- Z.pow_succ_r by lia; f_equal; lia).
    lia.
  - intros k Hk ->. rewrite H0.
    destruct (decide (k < m)) as [Hlt|Hge]; [specialize (Hmin k); lia |].
    pose proof (Z.pow_le_mono_r 2 m k). lia.
Qed.

(** X6. Asking for more cores never costs fewer nodes, at any level. *)
Theorem cost_monotone (n_core n_core' : Z) :
  n_core ≤ n_core' →
  ∃ rc rc', returns_cost F n_core rc ∧ returns_cost F n_core' rc'
    ∧ n_L0 rc ≤ n_L0 rc' ∧ n_L1 rc ≤ n_L1 rc' ∧ n_L2 rc ≤ n_L2 rc'
    ∧ n_L3 rc ≤ n_L3 rc' ∧ n_L4 rc ≤ n_L4 rc'.
Proof.
  intros Hle.
  destruct (cost_exists n_core)
    as (rc & m & Hrc & Hm & H0 & Hreach & Hmin & H1 & H2 & H3 & H4).
  destruct (cost_exists n_core')
    as (rc' & m' & Hrc' & Hm' & H0' & Hreach' & Hmin' & H1' & H2' & H3' & H4').
  exists rc, rc'. split; [done |]. split; [done |].
  assert (Hmm : m ≤ m').
  { destruct (decide (m ≤ m')) as [|Hgt]; [done |].
    specialize (Hmin m'). lia. }
  assert (E0 : n_L0 rc ≤ n_L0 rc')
    by (rewrite H0, H0'; apply Z.pow_le_mono_r; lia).
  assert (P0 : 1 ≤ n_L0 rc)
    by (rewrite H0; pose proof (Z.pow_pos_nonneg 2 m); lia).
  pose proof (next_bounds _ P0) as P1. rewrite <- H1 in P1.
  pose proof (next_bounds _ (proj1 P1)) as P2. rewrite <- H2 in P2.
  pose proof (next_bounds _ (proj1 P2)) as P3. rewrite <- H3 in P3.
  assert (E1 : n_L1 rc ≤ n_L1 rc') by (rewrite H1, H1'; by apply next_mono).
  assert (E2 : n_L2 rc ≤ n_L2 rc')
    by (rewrite H2, H2'; apply next_mono; [apply P1 | done]).
  assert (E3 : n_L3 rc ≤ n_L3 rc')
    by (rewrite H3, H3'; apply next_mono; [apply P2 | done]).
  assert (E4 : n_L4 rc ≤ n_L4 rc')
    by (rewrite H4, H4'; apply next_mono; [apply P3 | done]).
  done.
Qed.

(** X7. A request of at most [F] cores needs one node at every level above
    the leaves, and [get_routing_level] places its cost in an [L1] cluster. *)
Theorem small_request_fits_L1 (n_core : Z) :
  n_core ≤ F →
  ∃ rc, returns_cost F n_core rc
    ∧ n_L1 rc = 1 ∧ n_L2 rc = 1 ∧ n_L3 rc = 1 ∧ n_L4 rc = 1
    ∧ get_routing_level rc = Ok RoutingLevel.L1.
Proof.
  intros Hle.
  destruct (cost_exists n_core)
    as (rc & m & Hrc & Hm & H0 & Hreach & Hmin & H1 & H2 & H3 & H4).
  exists rc. split; [done |].
  assert (E1 : n_L1 rc = 1).
  { rewrite H1, H0. unfold next.
    destruct (Z.ltb_spec (2 ^ m) F) as [|HF]; [done |].
    destruct (decide (m = 0)) as [->|Hm0].
    { change (2 ^ 0) with 1 in *. by assert (F = 1) as -> by lia. }
    specialize (Hmin (m - 1)).
    assert (E : 2 ^ m = 2 * 2 ^ (m - 1))
      by (rewrite <- Z.pow_succ_r by lia; f_equal; lia).
    symmetry. apply (Z.div_unique_pos _ _ 1 (2 ^ m - F)); lia. }
  assert (E2 : n_L2 rc = 1) by (by rewrite H2, E1, next_one).
  assert (E3 : n_L3 rc = 1) by (by rewrite H3, E2, next_one).
  assert (E4 : n_L4 rc = 1) by (by rewrite H4, E3, next_one).
  split_and!; [done .. |].
  rewrite get_routing_level_unfold, E1, E2, E3, E4. cbn.
  by destruct (n_L0 rc >? 1).
Qed.
End cost.

Lemma cost_counts_decrease_witness :
  0 < 4
  ∧ ∃ rc, returns_cost 4 33 rc
      ∧ 1 ≤ RoutingCost.n_L4 rc ∧ RoutingCost.n_L4 rc ≤ RoutingCost.n_L3 rc
      ∧ RoutingCost.n_L3 rc ≤ RoutingCost.n_L2 rc
      ∧ RoutingCost.n_L2 rc ≤ RoutingCost.n_L1 rc
      ∧ RoutingCost.n_L1 rc ≤ RoutingCost.n_L0 rc.
Proof.
  assert (H : 0 < 4) by lia.
  split; [exact H |]. exact (cost_counts_decrease 4 H 33).
Defined.

Lemma cost_n_L0_tight_witness :
  0 < 4
  ∧ ∃ rc, returns_cost 4 20 rc
      ∧ (20 ≤ 1 → rc = RoutingCost.mk 1 1 1 1 1)
      ∧ (1 ≤ 20 → 20 ≤ RoutingCost.n_L0 rc < 2 * 20)
      ∧ (∀ k, 0 ≤ k → 20 = 2 ^ k → RoutingCost.n_L0 rc = 20).
Proof.
  assert (H : 0 < 4) by lia.
  split; [exact H |]. exact (cost_n_L0_tight 4 H 20).
Defined.

Lemma cost_monotone_witness :
  0 < 4 ∧ 5 ≤ 33
  ∧ ∃ rc rc', returns_cost 4 5 rc ∧ returns_cost 4 33 rc'
      ∧ RoutingCost.n_L0 rc ≤ RoutingCost.n_L0 rc'
      ∧ RoutingCost.n_L1 rc ≤ RoutingCost.n_L1 rc'
      ∧ RoutingCost.n_L2 rc ≤ RoutingCost.n_L2 rc'
      ∧ RoutingCost.n_L3 rc ≤ RoutingCost.n_L3 rc'
      ∧ RoutingCost.n_L4 rc ≤ RoutingCost.n_L4 rc'.
Proof.
  assert (H : 0 < 4) by lia. assert (H' : 5 ≤ 33) by lia.
  split; [exact H |]. split; [exact H' |]. exact (cost_monotone 4 H 5 33 H').
Defined.

Lemma small_request_fits_L1_witness :
  0 < 4 ∧ 3 ≤ 4
  ∧ ∃ rc, returns_cost 4 3 rc
      ∧ RoutingCost.n_L1 rc = 1 ∧ RoutingCost.n_L2 rc = 1
      ∧ RoutingCost.n_L3 rc = 1 ∧ RoutingCost.n_L4 rc = 1
      ∧ RoutingCost.get_routing_level rc = Ok RoutingLevel.L1.
Proof.
  assert (H : 0 < 4) by lia. assert (H' : 3 ≤ 4) by lia.
  split; [exact H |]. split; [exact H' |].
  exact (small_request_fits_L1 4 H 3 H').
Defined.

(** ** Coordinate mapper: paths and mesh coordinates *)

Section paths.
Import RoutingDirection RoutingCoord.

Lemma value_direction_of_bits (bx by_ : bool) :
  value (direction_of_bits bx by_) = (Z.b2z bx, Z.b2z by_).
Proof. by destruct bx, by_. Qed.

Lemma direction_of_bits_concrete (bx by_ : bool) :
  direction_of_bits bx by_ ≠ ANY.
Proof. by destruct bx, by_. Qed.

Lemma concrete_direction_of_bits (d : RoutingDirection.t) :
  d ≠ ANY → ∃ bx by_, d = direction_of_bits bx by_.
Proof.
  destruct d; [| | | | done]; intros _;
    [by exists false, false | by exists false, true
     | by exists true, false | by exists true, true].
Qed.

Lemma no_ANY_fields (rc : RoutingCoord.t) :
  ANY ∉ to_list rc
  ↔ L4 rc ≠ ANY ∧ L3 rc ≠ ANY ∧ L2 rc ≠ ANY ∧ L1 rc ≠ ANY ∧ L0 rc ≠ ANY.
Proof.
  unfold to_list. rewrite !not_elem_of_cons. split.
  - intros (? & ? & ? & ? & ? & _). by split_and!; apply not_eq_sym.
  - intros (? & ? & ? & ? & ?).
    by split_and!; [apply not_eq_sym .. | apply not_elem_of_nil].
Qed.

(** The five x bits, or y bits, placed at positions 4..0. *)
Let place (b4 b3 b2 b1 b0 : bool) : Z :=
  Z.shiftl (Z.b2z b4) 4 + Z.shiftl (Z.b2z b3) 3 + Z.shiftl (Z.b2z b2) 2
  + Z.shiftl (Z.b2z b1) 1 + Z.b2z b0.

(** The coordinate of a path given by its bits. *)
Lemma coordinate_of_bits (x4 x3 x2 x1 x0 y4 y3 y2 y1 y0 : bool) :
  coordinate (mk (direction_of_bits x4 y4) (direction_of_bits x3 y3)
                 (direction_of_bits x2 y2) (direction_of_bits x1 y1)
                 (direction_of_bits x0 y0))
  = Ok (mkCoord (place x4 x3 x2 x1 x0) (place y4 y3 y2 y1 y0)).
Proof.
  unfold coordinate. rewrite level_no_ANY.
  - cbn [mbind result_bind L4 L3 L2 L1 L0].
    by rewrite !value_direction_of_bits.
  - apply no_ANY_fields. cbn [L4 L3 L2 L1 L0].
    split_and!; apply direction_of_bits_concrete.
Qed.

(** A path has a coordinate only when it is made of concrete directions. *)
Lemma coordinate_ok_bits (rc : RoutingCoord.t) (c : Coord) :
  coordinate rc = Ok c →
  ∃ x4 x3 x2 x1 x0 y4 y3 y2 y1 y0,
    rc = mk (direction_of_bits x4 y4) (direction_of_bits x3 y3)
            (direction_of_bits x2 y2) (direction_of_bits x1 y1)
            (direction_of_bits x0 y0)
    ∧ c = mkCoord (place x4 x3 x2 x1 x0) (place y4 y3 y2 y1 y0).
Proof.
  intros Hc.
  assert (Hno : ANY ∉ to_list rc).
  { intros (l & Hl & Hne)%level_some_ANY.
    unfold coordinate in Hc. rewrite Hl in Hc. by destruct l. }
  apply no_ANY_fields in Hno as (N4 & N3 & N2 & N1 & N0).
  destruct rc as [d4 d3 d2 d1 d0]. cbn [L4 L3 L2 L1 L0] in *.
  destruct (concrete_direction_of_bits d4) as (x4 & y4 & ->); [done |].
  destruct (concrete_direction_of_bits d3) as (x3 & y3 & ->); [done |].
  destruct (concrete_direction_of_bits d2) as (x2 & y2 & ->); [done |].
  destruct (concrete_direction_of_bits d1) as (x1 & y1 & ->); [done |].
  destruct (concrete_direction_of_bits d0) as (x0 & y0 & ->); [done |].
  rewrite coordinate_of_bits in Hc. injection Hc as <-.
  by exists x4, x3, x2, x1, x0, y4, y3, y2, y1, y0.
Qed.

Lemma place_inj (a4 a3 a2 a1 a0 b4 b3 b2 b1 b0 : bool) :
  place a4 a3 a2 a1 a0 = place b4 b3 b2 b1 b0 →
  a4 = b4 ∧ a3 = b3 ∧ a2 = b2 ∧ a1 = b1 ∧ a0 = b0.
Proof.
  intros Heq.
  assert (Hbit : ∀ k, 0 ≤ k ≤ 4 →
            Z.b2z (match k with 4 => a4 | 3 => a3 | 2 => a2 | 1 => a1 | _ => a0 end)
            = Z.b2z (match k with 4 => b4 | 3 => b3 | 2 => b2 | 1 => b1 | _ => b0 end)).
  { intros k Hk. rewrite <- !placed_bits_testbit by done.
    unfold place in Heq. by rewrite Heq. }
  split_and!; apply Z.b2z_inj;
    [apply (Hbit 4) | apply (Hbit 3) | apply (Hbit 2) | apply (Hbit 1)
     | apply (Hbit 0)]; lia.
Qed.

Lemma place_range (b4 b3 b2 b1 b0 : bool) : 0 ≤ place b4 b3 b2 b1 b0 < 32.
Proof. destruct b4, b3, b2, b1, b0; by vm_compute. Qed.

Lemma place_testbits (x : Z) :
  0 ≤ x < 32 →
  place (Z.testbit x 4) (Z.testbit x 3) (Z.testbit x 2) (Z.testbit x 1)
        (Z.testbit x 0) = x.
Proof.
  intros Hx.
  assert (∃ n, (n < 32)%nat ∧ x = Z.of_nat n) as (n & Hn & ->)
    by (exists (Z.to_nat x); lia).
  clear Hx. do 32 (destruct n as [|n]; [reflexivity |]). lia.
Qed.

(** X8. A coordinate comes from one full path only, and lies in the 32 x 32
    mesh: two paths with the same coordinate are equal, none of their
    entries is [ANY], and both fields of the coordinate are in 0..31. *)
Theorem coordinate_injective (rc rc' : RoutingCoord.t) (c : Coord) :
  coordinate rc = Ok c →
  (coordinate rc' = Ok c → rc = rc')
  ∧ (ANY ∉ to_list rc)
  ∧ level rc = Ok RoutingLevel.L0
  ∧ 0 ≤ coord_x c < 32 ∧ 0 ≤ coord_y c < 32.
Proof.
  intros (x4 & x3 & x2 & x1 & x0 & y4 & y3 & y2 & y1 & y0 & -> & ->)
    %coordinate_ok_bits.
  assert (Hno : ANY ∉ to_list
            (mk (direction_of_bits x4 y4) (direction_of_bits x3 y3)
                (direction_of_bits x2 y2) (direction_of_bits x1 y1)
                (direction_of_bits x0 y0))).
  { apply no_ANY_fields. cbn [L4 L3 L2 L1 L0].
    split_and!; apply direction_of_bits_concrete. }
  split_and!; [| done | by apply level_no_ANY | apply place_range ..].
  intros (a4 & a3 & a2 & a1 & a0 & b4 & b3 & b2 & b1 & b0 & -> & [= Hx Hy])
    %coordinate_ok_bits.
  apply place_inj in Hx as (-> & -> & -> & -> & ->).
  by apply place_inj in Hy as (-> & -> & -> & -> & ->).
Qed.

Lemma coordinate_injective_witness :
  coordinate (mk X1Y0 X0Y1 X1Y1 X0Y0 X1Y0) = Ok (mkCoord 21 12)
  ∧ (coordinate (mk X1Y0 X0Y1 X1Y1 X0Y0 X1Y0) = Ok (mkCoord 21 12) →
     mk X1Y0 X0Y1 X1Y1 X0Y0 X1Y0 = mk X1Y0 X0Y1 X1Y1 X0Y0 X1Y0)
  ∧ (ANY ∉ to_list (mk X1Y0 X0Y1 X1Y1 X0Y0 X1Y0))
  ∧ level (mk X1Y0 X0Y1 X1Y1 X0Y0 X1Y0) = Ok RoutingLevel.L0
  ∧ 0 ≤ 21 < 32 ∧ 0 ≤ 12 < 32.
Proof.
  assert (H : coordinate (mk X1Y0 X0Y1 X1Y1 X0Y0 X1Y0) = Ok (mkCoord 21 12))
    by reflexivity.
  split; [exact H |].
  exact (coordinate_injective (mk X1Y0 X0Y1 X1Y1 X0Y0 X1Y0)
           (mk X1Y0 X0Y1 X1Y1 X0Y0 X1Y0) (mkCoord 21 12) H).
Defined.

(** X9. Every coordinate of the 32 x 32 mesh is the coordinate of a full
    path, the one whose level-[k] direction carries bit [k] of [x] and of
    [y]; and reading the bits of a path's coordinate gives the path back. *)
Theorem coordinate_path_of_coord (x y : Z) :
  0 ≤ x < 32 → 0 ≤ y < 32 →
  coordinate (path_of_coord x y) = Ok (mkCoord x y)
  ∧ ∀ rc, coordinate rc = Ok (mkCoord x y) → rc = path_of_coord x y.
Proof.
  intros Hx Hy.
  assert (Hpath : coordinate (path_of_coord x y) = Ok (mkCoord x y)).
  { unfold path_of_coord. rewrite coordinate_of_bits.
    by rewrite !place_testbits. }
  split; [done |]. intros rc Hrc.
  pose proof (coordinate_ok_bits rc _ Hrc)
    as (x4 & x3 & x2 & x1 & x0 & y4 & y3 & y2 & y1 & y0 & -> & [= Ex Ey]).
  pose proof (coordinate_ok_bits _ _ Hpath)
    as (a4 & a3 & a2 & a1 & a0 & b4 & b3 & b2 & b1 & b0 & -> & [= Ex' Ey']).
  rewrite Ex' in Ex. rewrite Ey' in Ey.
  apply place_inj in Ex as (-> & -> & -> & -> & ->).
  by apply place_inj in Ey as (-> & -> & -> & -> & ->).
Qed.

Lemma coordinate_path_of_coord_witness :
  0 ≤ 21 < 32 ∧ 0 ≤ 12 < 32
  ∧ coordinate (path_of_coord 21 12) = Ok (mkCoord 21 12)
  ∧ ∀ rc, coordinate rc = Ok (mkCoord 21 12) → rc = path_of_coord 21 12.
Proof.
  assert (Hx : 0 ≤ 21 < 32) by lia. assert (Hy : 0 ≤ 12 < 32) by lia.
  split; [exact Hx |]. split; [exact Hy |].
  exact (coordinate_path_of_coord 21 12 Hx Hy).
Defined.
End paths.

(** ** Multicast group engine: the shape of a group *)

Section group.

Lemma testbit_31 (k : Z) : Z.testbit 31 k = bool_decide (0 ≤ k < 5).
Proof.
  change 31 with (Z.ones 5). case_bool_decide as Hk.
  - by apply Z.ones_spec_low.
  - destruct (decide (k < 0)); [by apply Z.testbit_neg_r |].
    apply Z.ones_spec_high. lia.
Qed.

Lemma testbit_low5 (m k : Z) :
  Z.testbit (Z.land m 31) k = Z.testbit m k && bool_decide (0 ≤ k < 5).
Proof. by rewrite Z.land_spec, testbit_31. Qed.

Lemma testbit_differ (u v k : Z) :
  Z.testbit (Z.lxor u v) k = true ↔ Z.testbit u k ≠ Z.testbit v k.
Proof.
  rewrite Z.lxor_spec. by destruct (Z.testbit u k), (Z.testbit v k).
Qed.

(** The candidates of an axis are the values that differ from [b] only at
    bit positions 0..4 set in the mask. *)
Lemma elem_of_candidates_5 (b m v : Z) :
  v ∈ candidates b m [0; 1; 2; 3; 4]
  ↔ ∀ k, Z.testbit v k ≠ Z.testbit b k → 0 ≤ k < 5 ∧ Z.testbit m k = true.
Proof.
  rewrite <- range_5, elem_of_candidates. split.
  - intros Hv k Hne.
    destruct (decide (k < 0)) as [Hneg|Hpos].
    { by rewrite !Z.testbit_neg_r in Hne. }
    destruct (Hv k) as [? ?]; [lia | by apply testbit_differ |].
    split; [lia | done].
  - intros Hv k Hk Hbit%testbit_differ. destruct (Hv k Hbit). split; [lia | done].
Qed.

Lemma axis_closed_form (b m v : Z) :
  v ∈ candidates b m [0; 1; 2; 3; 4]
  ↔ Z.ldiff (Z.lxor v b) (Z.land m 31) = 0.
Proof.
  rewrite elem_of_candidates_5. split.
  - intros Hv. apply Z.bits_inj. intros k.
    rewrite Z.ldiff_spec, testbit_low5, Z.bits_0.
    destruct (Z.testbit (Z.lxor v b) k) eqn:E; [| done].
    apply testbit_differ, Hv in E as [Hk ->].
    by rewrite bool_decide_eq_true_2.
  - intros Hz k Hne%testbit_differ.
    assert (E : Z.testbit (Z.ldiff (Z.lxor v b) (Z.land m 31)) k = false)
      by (by rewrite Hz, Z.bits_0).
    rewrite Z.ldiff_spec, testbit_low5, Hne in E.
    destruct (Z.testbit m k); [| done].
    case_bool_decide; [done | done].
Qed.

(** Flipping one mask bit of a candidate gives a candidate. *)
Lemma flipped_candidate (b m k : Z) :
  0 ≤ k < 5 → Z.testbit m k = true →
  Z.lxor b (Z.shiftl 1 k) ∈ candidates b m [0; 1; 2; 3; 4]
  ∧ Z.testbit (Z.lxor b (Z.shiftl 1 k)) k ≠ Z.testbit b k.
Proof.
  intros Hk Hm.
  assert (Hflip : ∀ j, Z.testbit (Z.lxor b (Z.shiftl 1 k)) j
                       = xorb (Z.testbit b j) (bool_decide (j = k))).
  { intros j. by rewrite Z.lxor_spec, testbit_flip by lia. }
  split.
  - apply elem_of_candidates_5. intros j. rewrite Hflip.
    case_bool_decide as Hj; [subst j; done |].
    by rewrite xorb_false_r.
  - rewrite Hflip, bool_decide_eq_true_2 by done.
    by destruct (Z.testbit b k).
Qed.

(** X10. Membership in a multicast group without expanding it: [c] is
    addressed by [base] and [rid] exactly when, on each axis, [c XOR base]
    has no bit outside the low five bits of the mask. *)
Theorem get_multicast_cores_closed_form (base : Coord) (rid : RId) (c : Coord) :
  c ∈ get_multicast_cores base rid
  ↔ Z.ldiff (Z.lxor (coord_x c) (coord_x base)) (Z.land (rid_x rid) 31) = 0
    ∧ Z.ldiff (Z.lxor (coord_y c) (coord_y base)) (Z.land (rid_y rid) 31) = 0.
Proof.
  by rewrite elem_of_get_multicast_cores, !axis_closed_form.
Qed.

(** X11. The base always belongs to its group, and the group is the base
    alone exactly when the low five bits of both mask fields are zero. *)
Theorem get_multicast_cores_base (base : Coord) (rid : RId) :
  base ∈ get_multicast_cores base rid
  ∧ (get_multicast_cores base rid = {[base]} ↔ low5 rid = mkRId 0 0).
Proof.
  assert (Hbase : base ∈ get_multicast_cores base rid).
  { apply elem_of_get_multicast_cores.
    split; apply elem_of_candidates_5; by intros k []. }
  split; [done |]. split.
  - intros Hsingle.
    assert (Hzero : ∀ k, Z.testbit (Z.land (rid_x rid) 31) k = false
                         ∧ Z.testbit (Z.land (rid_y rid) 31) k = false).
    { intros k. rewrite !testbit_low5. case_bool_decide as Hk;
        [| by rewrite !andb_false_r]. rewrite !andb_true_r.
      split.
      - destruct (Z.testbit (rid_x rid) k) eqn:E; [| done].
        destruct (flipped_candidate (coord_x base) _ k Hk E) as [Hin Hne].
        assert (Hc : mkCoord (Z.lxor (coord_x base) (Z.shiftl 1 k)) (coord_y base)
                     ∈ get_multicast_cores base rid).
        { apply elem_of_get_multicast_cores. split; [done |].
          apply elem_of_candidates_5. by intros j []. }
        rewrite Hsingle, elem_of_singleton in Hc.
        apply (f_equal coord_x) in Hc. cbn in Hc. by rewrite Hc in Hne.
      - destruct (Z.testbit (rid_y rid) k) eqn:E; [| done].
        destruct (flipped_candidate (coord_y base) _ k Hk E) as [Hin Hne].
        assert (Hc : mkCoord (coord_x base) (Z.lxor (coord_y base) (Z.shiftl 1 k))
                     ∈ get_multicast_cores base rid).
        { apply elem_of_get_multicast_cores. split; [| done].
          apply elem_of_candidates_5. by intros j []. }
        rewrite Hsingle, elem_of_singleton in Hc.
        apply (f_equal coord_y) in Hc. cbn in Hc. by rewrite Hc in Hne. }
    unfold low5. f_equal; apply Z.bits_inj; intros k; rewrite Z.bits_0;
      apply Hzero.
  - intros [= Hx Hy]. apply set_eq. intros c.
    rewrite get_multicast_cores_closed_form, Hx, Hy, elem_of_singleton.
    rewrite !Z.ldiff_0_r. split.
    + intros [Ex%Z.lxor_eq Ey%Z.lxor_eq]. destruct c, base; cbn in *; congruence.
    + intros ->. by rewrite !Z.lxor_nilpotent.
Qed.

(** X12. A group does not depend on which of its members is taken as the
    base. *)
Theorem get_multicast_cores_any_base (base c : Coord) (rid : RId) :
  c ∈ get_multicast_cores base rid →
  get_multicast_cores c rid = get_multicast_cores base rid.
Proof.
  rewrite elem_of_get_multicast_cores, !elem_of_candidates_5.
  intros [Hx Hy]. apply set_eq. intros v.
  rewrite !elem_of_get_multicast_cores, !elem_of_candidates_5.
  split; intros [Hvx Hvy]; split; intros k Hne.
  - destruct (decide (Z.testbit (coord_x v) k = Z.testbit (coord_x c) k))
      as [E|E]; [apply Hx; congruence | by apply Hvx].
  - destruct (decide (Z.testbit (coord_y v) k = Z.testbit (coord_y c) k))
      as [E|E]; [apply Hy; congruence | by apply Hvy].
  - destruct (decide (Z.testbit (coord_x v) k = Z.testbit (coord_x base) k))
      as [E|E]; [apply Hx; congruence | by apply Hvx].
  - destruct (decide (Z.testbit (coord_y v) k = Z.testbit (coord_y base) k))
      as [E|E]; [apply Hy; congruence | by apply Hvy].
Qed.

Lemma get_multicast_cores_any_base_witness :
  mkCoord 3 4 ∈ get_multicast_cores (mkCoord 2 5) (mkRId 1 1)
  ∧ get_multicast_cores (mkCoord 3 4) (mkRId 1 1)
    = get_multicast_cores (mkCoord 2 5) (mkRId 1 1).
Proof.
  assert (H : mkCoord 3 4 ∈ get_multicast_cores (mkCoord 2 5) (mkRId 1 1)).
  { apply (bool_decide_unpack _). by vm_compute. }
  split; [exact H |].
  exact (get_multicast_cores_any_base (mkCoord 2 5) (mkCoord 3 4) (mkRId 1 1) H).
Defined.

(** X13. A mask with more don't-care bits among the low five addresses a
    larger group; in particular OR-ing a second mask into a mask only adds
    members. *)
Theorem get_multicast_cores_monotone (base : Coord) (rid rid' : RId) :
  submask (Z.land (rid_x rid) 31) (Z.land (rid_x rid') 31) →
  submask (Z.land (rid_y rid) 31) (Z.land (rid_y rid') 31) →
  get_multicast_cores base rid ⊆ get_multicast_cores base rid'
  ∧ get_multicast_cores base rid ⊆ get_multicast_cores base (RId_or rid rid').
Proof.
  intros Hx Hy.
  assert (Haxis : ∀ b m m' v,
            (∀ k, 0 ≤ k < 5 → Z.testbit m k = true → Z.testbit m' k = true) →
            v ∈ candidates b m [0; 1; 2; 3; 4] →
            v ∈ candidates b m' [0; 1; 2; 3; 4]).
  { intros b m m' v Hsub. rewrite !elem_of_candidates_5. intros Hv k Hne.
    destruct (Hv k Hne). split; [done |]. by apply Hsub. }
  assert (Hlow : ∀ m m', submask (Z.land m 31) (Z.land m' 31) →
            ∀ k, 0 ≤ k < 5 → Z.testbit m k = true → Z.testbit m' k = true).
  { intros m m' Hsub k Hk Hm. specialize (Hsub k).
    rewrite !testbit_low5, bool_decide_eq_true_2, !andb_true_r in Hsub by done.
    by apply Hsub. }
  split; intros c; rewrite !elem_of_get_multicast_cores; intros [Hcx Hcy].
  - split; [apply (Haxis _ (rid_x rid)) | apply (Haxis _ (rid_y rid))];
      eauto.
  - split; [apply (Haxis _ (rid_x rid)) | apply (Haxis _ (rid_y rid))];
      try done; intros k _ Hm; cbn; rewrite Z.lor_spec, Hm; done.
Qed.

Lemma get_multicast_cores_monotone_witness :
  submask (Z.land 1 31) (Z.land 3 31)
  ∧ submask (Z.land 0 31) (Z.land 4 31)
  ∧ get_multicast_cores (mkCoord 0 0) (mkRId 1 0)
    ⊆ get_multicast_cores (mkCoord 0 0) (mkRId 3 4)
  ∧ get_multicast_cores (mkCoord 0 0) (mkRId 1 0)
    ⊆ get_multicast_cores (mkCoord 0 0) (RId_or (mkRId 1 0) (mkRId 3 4)).
Proof.
  assert (Hx : submask (Z.land 1 31) (Z.land 3 31)).
  { intros k. change (Z.land 1 31) with 1. change (Z.land 3 31) with 3.
    destruct k as [|[p|p|]|p]; cbn; done. }
  assert (Hy : submask (Z.land 0 31) (Z.land 4 31)).
  { intros k. change (Z.land 0 31) with 0. by rewrite Z.bits_0. }
  split; [exact Hx |]. split; [exact Hy |].
  exact (get_multicast_cores_monotone (mkCoord 0 0) (mkRId 1 0) (mkRId 3 4) Hx Hy).
Defined.
End group.

(** ** Multicast group engine: the size of a group *)

Section group_size.

Lemma size_set_map_inj `{Countable A, Countable B} (f : A → B) (X : gset A) :
  Inj (=) (=) f → size (set_map (D := gset B) f X) = size X.
Proof.
  intros Hinj. unfold set_map. rewrite size_list_to_set.
  - by rewrite length_fmap.
  - apply NoDup_fmap_2; [done | apply NoDup_elements].
Qed.

Lemma size_cprod (X Y : gset Z) :
  size (cprod X Y : gset (Z * Z)) = (size X * size Y)%nat.
Proof.
  induction X as [|x X Hx IH] using set_ind_L.
  - assert (cprod (∅ : gset Z) Y = (∅ : gset (Z * Z))) as ->.
    { apply set_eq. intros [a b].
      rewrite elem_of_gset_cprod, !elem_of_empty. cbn. tauto. }
    by rewrite !size_empty.
  - assert (cprod ({[x]} ∪ X) Y
            = set_map (D := gset (Z * Z)) (pair x) Y ∪ cprod X Y) as ->.
    { apply set_eq. intros [a b].
      rewrite elem_of_union, !elem_of_gset_cprod, elem_of_map. cbn.
      rewrite elem_of_union, elem_of_singleton. split.
      - intros [[->|Ha] Hb]; [left; by exists b | by right].
      - intros [(b' & [= -> ->] & Hb)|[Ha Hb]]; [by split; [left |] |].
        by split; [right |]. }
    rewrite size_union.
    + rewrite size_set_map_inj by (by intros ?? [=]).
      rewrite size_union, size_singleton, IH by (by apply disjoint_singleton_l).
      lia.
    + intros [a b] (b' & [= -> ->] & Hb)%elem_of_map [Ha _]%elem_of_gset_cprod.
      done.
Qed.

Lemma bit_count_range_S (m : Z) (n : nat) :
  bit_count m (range (S n))
  = (bit_count m (range n) + if Z.testbit m (Z.of_nat n) then 1 else 0)%nat.
Proof.
  unfold bit_count, range. rewrite seq_S, fmap_app, sum_list_with_app. cbn. lia.
Qed.

(** The candidates of an axis number two to the number of mask bits used. *)
Lemma size_candidates (b m : Z) (n : nat) :
  size (candidates b m (range n)) = (2 ^ bit_count m (range n))%nat.
Proof.
  induction n as [|n IH].
  - cbn. by rewrite size_singleton.
  - rewrite bit_count_range_S.
    destruct (Z.testbit m (Z.of_nat n)) eqn:E.
    + rewrite candidates_double, IH by done.
      rewrite Nat.pow_add_r. cbn. lia.
    + rewrite Nat.add_0_r, <- IH. f_equal.
      unfold candidates, range. rewrite seq_S, fmap_app, foldl_app. cbn.
      unfold double_on at 1. by rewrite E.
Qed.

Lemma bit_count_le (m : Z) (ks : list Z) : (bit_count m ks ≤ length ks)%nat.
Proof.
  unfold bit_count. induction ks as [|k ks IH]; cbn; [done |].
  destruct (Z.testbit m k); lia.
Qed.

(** X14. A group has exactly two to the number of don't-care bits members:
    the bits among positions 0..4 set in the x mask, plus those set in the
    y mask.  So it has at least one member and at most 1024. *)
Theorem get_multicast_cores_size (base : Coord) (rid : RId) :
  size (get_multicast_cores base rid)
  = (2 ^ (bit_count (rid_x rid) [0; 1; 2; 3; 4]%Z
          + bit_count (rid_y rid) [0; 1; 2; 3; 4]%Z))%nat
  ∧ (1 ≤ size (get_multicast_cores base rid) ≤ 1024)%nat.
Proof.
  assert (Hsize : size (get_multicast_cores base rid)
                  = (2 ^ (bit_count (rid_x rid) [0; 1; 2; 3; 4]%Z
                          + bit_count (rid_y rid) [0; 1; 2; 3; 4]%Z))%nat).
  { rewrite get_multicast_cores_expand. unfold expand_multicast_group.
    rewrite size_set_map_inj by (by intros [??] [??] [= -> ->]).
    rewrite size_cprod, <- !range_5, !size_candidates.
    by rewrite Nat.pow_add_r. }
  split; [done |]. rewrite Hsize.
  pose proof (bit_count_le (rid_x rid) [0; 1; 2; 3; 4]) as Hx.
  pose proof (bit_count_le (rid_y rid) [0; 1; 2; 3; 4]) as Hy.
  cbn [length] in Hx, Hy.
  set (n := (bit_count _ _ + bit_count _ _)%nat) in *.
  assert (Hn : (n ≤ 10)%nat) by lia. split.
  - apply (Nat.pow_le_mono_r 2 0 n); lia.
  - change 1024%nat with (2 ^ 10)%nat. apply Nat.pow_le_mono_r; lia.
Qed.
End group_size.

(** ** Multicast group engine: what a mask depends on *)

Section mask.

(** Some coordinate after the first differs from the first exactly when
    some two coordinates differ. *)
Lemma pair_differs (base : Coord) (rest : list Coord) (f : Coord → bool) :
  (∃ c, c ∈ rest ∧ f c ≠ f base)
  ↔ ∃ c c', c ∈ base :: rest ∧ c' ∈ base :: rest ∧ f c ≠ f c'.
Proof.
  split.
  - intros (c & Hc & Hne). exists c, base. by split_and!; [right | left |].
  - intros (c & c' & [->|Hc]%elem_of_cons & [->|Hc']%elem_of_cons & Hne).
    + done.
    + exists c'. split; [done | congruence].
    + by exists c.
    + destruct (decide (f c = f base)) as [E|E].
      * exists c'. split; [done | congruence].
      * by exists c.
Qed.

(** A mask bit is set exactly when two coordinates of the sequence differ
    at that bit, whichever of them comes first. *)
Lemma mask_bits_set (base : Coord) (rest : list Coord) (k : Z) :
  (Z.testbit (rid_x (big_or (Coord_xor base <$> rest))) k = true
   ↔ ∃ c c', c ∈ base :: rest ∧ c' ∈ base :: rest
             ∧ Z.testbit (coord_x c) k ≠ Z.testbit (coord_x c') k)
  ∧ (Z.testbit (rid_y (big_or (Coord_xor base <$> rest))) k = true
     ↔ ∃ c c', c ∈ base :: rest ∧ c' ∈ base :: rest
               ∧ Z.testbit (coord_y c) k ≠ Z.testbit (coord_y c') k).
Proof.
  destruct (mask_bits base rest k) as [-> ->]. split.
  - apply (pair_differs base rest (λ c, Z.testbit (coord_x c) k)).
  - apply (pair_differs base rest (λ c, Z.testbit (coord_y c) k)).
Qed.

Lemma testbit_eq_iff (u v : Z) :
  (∀ k, Z.testbit u k = true ↔ Z.testbit v k = true) → u = v.
Proof.
  intros Hbits. apply Z.bits_inj. intros k. specialize (Hbits k).
  destruct (Z.testbit u k), (Z.testbit v k); try done.
  - symmetry. by apply Hbits.
  - by apply Hbits.
Qed.

(** The mask of a non-empty sequence is determined by its set of
    coordinates. *)
Lemma mask_of_set (base base' : Coord) (rest rest' : list Coord) :
  (∀ c, c ∈ base :: rest ↔ c ∈ base' :: rest') →
  big_or (Coord_xor base <$> rest) = big_or (Coord_xor base' <$> rest').
Proof.
  intros Hset.
  assert (Hx : rid_x (big_or (Coord_xor base <$> rest))
               = rid_x (big_or (Coord_xor base' <$> rest'))).
  { apply testbit_eq_iff. intros k.
    rewrite (proj1 (mask_bits_set base rest k)),
      (proj1 (mask_bits_set base' rest' k)).
    split; intros (c & c' & Hc & Hc' & Hne); exists c, c';
      (split_and!; [by apply Hset | by apply Hset | done]). }
  assert (Hy : rid_y (big_or (Coord_xor base <$> rest))
               = rid_y (big_or (Coord_xor base' <$> rest'))).
  { apply testbit_eq_iff. intros k.
    rewrite (proj2 (mask_bits_set base rest k)),
      (proj2 (mask_bits_set base' rest' k)).
    split; intros (c & c' & Hc & Hc' & Hne); exists c, c';
      (split_and!; [by apply Hset | by apply Hset | done]). }
  destruct (big_or (Coord_xor base <$> rest)),
    (big_or (Coord_xor base' <$> rest')); cbn in *; congruence.
Qed.

(** X15. The mask depends only on which coordinates occur in the sequence:
    their order, repetitions, and the choice of the first one as base make
    no difference, and neither does it for the failure on the empty
    sequence. *)
Theorem get_replication_id_of_set (coords coords' : list Coord) :
  list_to_set coords =@{gset Coord} list_to_set coords' →
  get_replication_id coords = get_replication_id coords'.
Proof.
  intros Hset.
  assert (Helem : ∀ c, c ∈ coords ↔ c ∈ coords').
  { intros c. by rewrite <- !(elem_of_list_to_set (C := gset Coord)), Hset. }
  destruct coords as [|base rest], coords' as [|base' rest'].
  - done.
  - assert (base' ∈ []) as Hin by (apply Helem; by left).
    by apply elem_of_nil in Hin.
  - assert (base ∈ []) as Hin by (apply Helem; by left).
    by apply elem_of_nil in Hin.
  - rewrite !get_replication_id_cons. f_equal. by apply mask_of_set.
Qed.

Lemma get_replication_id_of_set_witness :
  list_to_set [mkCoord 0 0; mkCoord 1 1; mkCoord 0 0; mkCoord 1 0]
  =@{gset Coord} list_to_set [mkCoord 1 0; mkCoord 1 1; mkCoord 0 0]
  ∧ get_replication_id [mkCoord 0 0; mkCoord 1 1; mkCoord 0 0; mkCoord 1 0]
    = get_replication_id [mkCoord 1 0; mkCoord 1 1; mkCoord 0 0].
Proof.
  assert (H : list_to_set [mkCoord 0 0; mkCoord 1 1; mkCoord 0 0; mkCoord 1 0]
              =@{gset Coord} list_to_set [mkCoord 1 0; mkCoord 1 1; mkCoord 0 0])
    by (vm_compute; reflexivity).
  split; [exact H |].
  exact (get_replication_id_of_set _ _ H).
Defined.

(** X16. The mask is zero exactly when the sequence is non-empty and all
    its coordinates are equal. *)
Theorem get_replication_id_zero (coords : list Coord) :
  get_replication_id coords = Ok (mkRId 0 0)
  ↔ coords ≠ [] ∧ ∀ c c', c ∈ coords → c' ∈ coords → c = c'.
Proof.
  destruct coords as [|base rest]; [by split; [| intros [[] _]] |].
  rewrite get_replication_id_cons. split.
  - intros [= Hzero]. split; [done |]. intros c c' Hc Hc'.
    assert (Hx : coord_x c = coord_x c').
    { apply Z.bits_inj. intros k.
      destruct (decide (Z.testbit (coord_x c) k = Z.testbit (coord_x c') k))
        as [|Hne]; [done |].
      assert (Hbit : Z.testbit (rid_x (big_or (Coord_xor base <$> rest))) k
                     = true)
        by (apply mask_bits_set; eauto).
      by rewrite Hzero, Z.bits_0 in Hbit. }
    assert (Hy : coord_y c = coord_y c').
    { apply Z.bits_inj. intros k.
      destruct (decide (Z.testbit (coord_y c) k = Z.testbit (coord_y c') k))
        as [|Hne]; [done |].
      assert (Hbit : Z.testbit (rid_y (big_or (Coord_xor base <$> rest))) k
                     = true)
        by (apply mask_bits_set; eauto).
      by rewrite Hzero, Z.bits_0 in Hbit. }
    destruct c, c'; cbn in *; congruence.
  - intros [_ Hall]. f_equal.
    assert (Hx : rid_x (big_or (Coord_xor base <$> rest)) = 0).
    { apply Z.bits_inj. intros k. rewrite Z.bits_0.
      destruct (Z.testbit _ k) eqn:E; [| done].
      apply mask_bits_set in E as (c & c' & Hc & Hc' & Hne).
      by rewrite (Hall c c') in Hne. }
    assert (Hy : rid_y (big_or (Coord_xor base <$> rest)) = 0).
    { apply Z.bits_inj. intros k. rewrite Z.bits_0.
      destruct (Z.testbit _ k) eqn:E; [| done].
      apply mask_bits_set in E as (c & c' & Hc & Hc' & Hne).
      by rewrite (Hall c c') in Hne. }
    destruct (big_or (Coord_xor base <$> rest)); cbn in *; congruence.
Qed.
End mask.

(** ** Multicast group engine: from a group back to its mask *)

Section group_to_mask.

(** Two members of a group differ at a bit exactly when it is one of the low
    five bits of the mask. *)
Lemma candidates_differ (b m k : Z) :
  (∃ u v, u ∈ candidates b m [0; 1; 2; 3; 4]
          ∧ v ∈ candidates b m [0; 1; 2; 3; 4]
          ∧ Z.testbit u k ≠ Z.testbit v k)
  ↔ Z.testbit (Z.land m 31) k = true.
Proof.
  rewrite testbit_low5, andb_true_iff, bool_decide_eq_true. split.
  - intros (u & v & Hu & Hv & Hne). rewrite elem_of_candidates_5 in Hu, Hv.
    destruct (decide (Z.testbit u k = Z.testbit b k)) as [E|E].
    + destruct (Hv k); [congruence | done].
    + destruct (Hu k); done.
  - intros [Hm Hk].
    destruct (flipped_candidate b m k Hk Hm) as [Hin Hne].
    exists (Z.lxor b (Z.shiftl 1 k)), b. split_and!; [done | | done].
    apply elem_of_candidates_5. by intros j [].
Qed.

(** X17. The mask of any enumeration of a group is the group's mask cut to
    its low five bits: deriving the mask undoes the expansion. *)
Theorem get_replication_id_of_group (base : Coord) (rid : RId) (coords : list Coord) :
  list_to_set coords = get_multicast_cores base rid →
  get_replication_id coords = Ok (low5 rid).
Proof.
  intros Hset.
  assert (Helem : ∀ c, c ∈ coords
            ↔ coord_x c ∈ candidates (coord_x base) (rid_x rid) [0; 1; 2; 3; 4]
              ∧ coord_y c ∈ candidates (coord_y base) (rid_y rid) [0; 1; 2; 3; 4]).
  { intros c. by rewrite <- elem_of_get_multicast_cores, <- Hset,
      elem_of_list_to_set. }
  assert (Hbase : base ∈ coords).
  { apply Helem. split; apply elem_of_candidates_5; by intros k []. }
  destruct coords as [|c0 rest]; [by apply elem_of_nil in Hbase |].
  rewrite get_replication_id_cons. f_equal.
  assert (Hx : rid_x (big_or (Coord_xor c0 <$> rest)) = Z.land (rid_x rid) 31).
  { apply testbit_eq_iff. intros k.
    rewrite (proj1 (mask_bits_set c0 rest k)), <- candidates_differ. split.
    - intros (c & c' & [Hc _]%Helem & [Hc' _]%Helem & Hne). eauto.
    - intros (u & v & Hu & Hv & Hne).
      exists (mkCoord u (coord_y base)), (mkCoord v (coord_y base)).
      split_and!; [apply Helem | apply Helem | done];
        (split; [done |]); apply elem_of_candidates_5; by intros j []. }
  assert (Hy : rid_y (big_or (Coord_xor c0 <$> rest)) = Z.land (rid_y rid) 31).
  { apply testbit_eq_iff. intros k.
    rewrite (proj2 (mask_bits_set c0 rest k)), <- candidates_differ. split.
    - intros (c & c' & [_ Hc]%Helem & [_ Hc']%Helem & Hne). eauto.
    - intros (u & v & Hu & Hv & Hne).
      exists (mkCoord (coord_x base) u), (mkCoord (coord_x base) v).
      split_and!; [apply Helem | apply Helem | done];
        (split; [| done]); apply elem_of_candidates_5; by intros j []. }
  unfold low5. destruct (big_or (Coord_xor c0 <$> rest)); cbn in *; congruence.
Qed.

Lemma get_replication_id_of_group_witness :
  list_to_set [mkCoord 7 9; mkCoord 5 9; mkCoord 5 25; mkCoord 7 25]
  = get_multicast_cores (mkCoord 5 9) (mkRId 34 16)
  ∧ get_replication_id [mkCoord 7 9; mkCoord 5 9; mkCoord 5 25; mkCoord 7 25]
    = Ok (low5 (mkRId 34 16)).
Proof.
  assert (H : list_to_set [mkCoord 7 9; mkCoord 5 9; mkCoord 5 25; mkCoord 7 25]
              = get_multicast_cores (mkCoord 5 9) (mkRId 34 16))
    by (vm_compute; reflexivity).
  split; [exact H |].
  exact (get_replication_id_of_group (mkCoord 5 9) (mkRId 34 16) _ H).
Defined.

Lemma shiftr_big_or (base : Coord) (rest : list Coord) (n : Z) :
  0 ≤ n →
  Forall (λ c, Z.shiftr (coord_x c) n = Z.shiftr (coord_x base) n
               ∧ Z.shiftr (coord_y c) n = Z.shiftr (coord_y base) n) rest →
  Z.shiftr (rid_x (big_or (Coord_xor base <$> rest))) n = 0
  ∧ Z.shiftr (rid_y (big_or (Coord_xor base <$> rest))) n = 0.
Proof.
  intros Hn Hall. induction Hall as [|c rest [Hx Hy] _ [IHx IHy]].
  - cbn. by rewrite Z.shiftr_0_l.
  - rewrite fmap_cons.
    change (big_or (Coord_xor base c :: (Coord_xor base <$> rest)))
      with (RId_or (Coord_xor base c) (big_or (Coord_xor base <$> rest))).
    cbn [RId_or Coord_xor rid_x rid_y].
    rewrite !Z.shiftr_lor, !Z.shiftr_lxor, IHx, IHy, Hx, Hy.
    by rewrite !Z.lxor_nilpotent.
Qed.

(** X18. When all the coordinates of a sequence lie in [0, 2^n) on both
    axes, so do both fields of its mask; for mesh coordinates (n = 5) the
    expansion therefore uses every bit of the mask. *)
Theorem get_replication_id_bounded (n : Z) (base : Coord) (rest : list Coord) :
  0 ≤ n →
  Forall (λ c, 0 ≤ coord_x c < 2 ^ n ∧ 0 ≤ coord_y c < 2 ^ n) (base :: rest) →
  ∃ rid, get_replication_id (base :: rest) = Ok rid
    ∧ 0 ≤ rid_x rid < 2 ^ n ∧ 0 ≤ rid_y rid < 2 ^ n
    ∧ (n ≤ 5 → low5 rid = rid).
Proof.
  intros Hn Hall. rewrite get_replication_id_cons. eexists. split; [done |].
  assert (Hzero : ∀ v, 0 ≤ v < 2 ^ n ↔ Z.shiftr v n = 0).
  { intros v. rewrite <- (in_interval_shiftr n 0 v) by done.
    unfold in_interval. lia. }
  destruct (shiftr_big_or base rest n Hn) as [Hx Hy].
  { apply Forall_cons in Hall as [[Hbx Hby] Hrest].
    apply Hzero in Hbx, Hby. rewrite Hbx, Hby.
    eapply Forall_impl; [exact Hrest |]. intros c [Hcx Hcy].
    by split; apply Hzero. }
  apply Hzero in Hx, Hy. split; [exact Hx |]. split; [exact Hy |].
  intros Hn5.
  assert (Hsmall : ∀ v, 0 ≤ v < 2 ^ n → Z.land v 31 = v).
  { intros v Hv. change 31 with (Z.ones 5). rewrite Z.land_ones by lia.
    apply Z.mod_small. pose proof (Z.pow_le_mono_r 2 n 5). lia. }
  unfold low5. destruct (big_or _) as [mx my]. cbn in *.
  by rewrite !Hsmall.
Qed.

Lemma get_replication_id_bounded_witness :
  0 ≤ 5
  ∧ Forall (λ c, 0 ≤ coord_x c < 2 ^ 5 ∧ 0 ≤ coord_y c < 2 ^ 5)
      [mkCoord 3 30; mkCoord 17 4]
  ∧ ∃ rid, get_replication_id [mkCoord 3 30; mkCoord 17 4] = Ok rid
      ∧ 0 ≤ rid_x rid < 2 ^ 5 ∧ 0 ≤ rid_y rid < 2 ^ 5
      ∧ (5 ≤ 5 → low5 rid = rid).
Proof.
  assert (Hn : 0 ≤ 5) by lia.
  assert (Hall : Forall (λ c, 0 ≤ coord_x c < 2 ^ 5 ∧ 0 ≤ coord_y c < 2 ^ 5)
                   [mkCoord 3 30; mkCoord 17 4])
    by (repeat constructor; cbn; lia).
  split; [exact Hn |]. split; [exact Hall |].
  exact (get_replication_id_bounded 5 (mkCoord 3 30) [mkCoord 17 4] Hn Hall).
Defined.
End group_to_mask.
